(** * Multi-client TCP chat: the server's registry, relay and handlers,
      and the client's send loop

    A shallow embedding of [src/windows/server.cpp] and
    [src/windows/client.cpp].  The Winsock calls are the operations of a
    [Transport]; every function of the source becomes a function that passes
    the shared state explicitly and returns the events it performs, in
    program order.  The threads of the server are interleaved by a scheduler
    over the atomic blocks of [main] and [handle_client]. *)

From Stdlib Require Import ZArith List String Ascii Lia Bool DecimalString.
From Equations Require Import Equations.
From Equations.Prop Require Import Logic.
Import ListNotations.
Open Scope Z_scope.

(* ===================================================================== *)
(** ** Winsock data *)
(* ===================================================================== *)

(** [typedef UINT_PTR SOCKET;] an unsigned integer of pointer width (64 bits
    on the Win64 target).  A handle is kept as a [Z] in [0, 2^64). *)
Definition SOCKET : Type := Z.
Definition SOCKET_BITS : Z := 64.

(** Conversion of a C++ integer to [SOCKET], with its wrap-around. *)
Definition to_SOCKET (v : Z) : SOCKET := v mod 2 ^ SOCKET_BITS.

(** [#define INVALID_SOCKET (SOCKET)(~0)] *)
Definition INVALID_SOCKET : SOCKET := to_SOCKET (Z.lnot 0).

(** [#define SOCKET_ERROR (-1)] *)
Definition SOCKET_ERROR : Z := -1.

(** [std::to_string] and [operator<<] on an integer: its decimal digits. *)
Definition to_string (v : Z) : string := NilZero.string_of_int (Z.to_int v).

(** [char buffer[4096]; ... sizeof(buffer)] *)
Definition BUFFER_SIZE : Z := 4096.

(** What a thread does that another thread, a peer or the operator can
    observe.  [EvPush] and [EvErase] record the two mutations of
    [client_sockets]; a line written with [std::endl] is one [EvCout] or
    [EvCerr] holding the text before the line end. *)
Inductive event : Type :=
| EvLock                                          (* std::lock_guard constructed on clients_mutex *)
| EvUnlock                                        (* that guard destroyed *)
| EvPush (socket : SOCKET)                        (* client_sockets.push_back *)
| EvErase (socket : SOCKET)                       (* client_sockets.erase(std::remove(..)) *)
| EvAccept (result : SOCKET)                      (* accept returned *)
| EvSpawn (socket : SOCKET)                       (* std::thread(handle_client, s).detach() *)
| EvRecv (socket : SOCKET) (bytes_received : Z)   (* recv returned *)
| EvSend (socket : SOCKET) (message : string) (result : Z)
| EvClose (socket : SOCKET)                       (* closesocket *)
| EvCout (text : string)
| EvCerr (text : string)
| EvGetline (line : string).                      (* std::getline extracted a line *)

(** How an iteration of a [while (true)] loop ends: by reaching the end of
    the body or [continue], or by [break]. *)
Inductive control : Type := Continue | Break.

(** The transport layer: the Winsock calls the two programs make, as
    functions on the state of the world outside the process. *)
Class Transport : Type := {
  world : Type;
  (** [accept(server_socket, NULL, NULL)] on the listening socket *)
  accept : world -> SOCKET * world;
  (** [recv(s, buffer, len, 0)]: the return value and the buffer afterwards *)
  recv : SOCKET -> Z -> world -> Z * string * world;
  (** [send(s, data, data.length(), 0)]: the return value *)
  send : SOCKET -> string -> world -> Z * world;
  closesocket : SOCKET -> world -> world;
  WSAGetLastError : world -> Z
}.

(* ===================================================================== *)
(** ** The server: [src/windows/server.cpp] *)
(* ===================================================================== *)

Section Server.
Context {T : Transport}.

(** The globals of the server, and the world its sockets talk to.
    [clients_mutex] is not a field: each block that holds it is one atomic
    step of the scheduler below, and brackets its events with [EvLock] and
    [EvUnlock]. *)
Record state : Type := mkState {
  client_sockets : list SOCKET;     (* std::vector<SOCKET> client_sockets *)
  env : world
}.

Definition with_env (st : state) (w : world) : state :=
  mkState (client_sockets st) w.

(** [v.push_back(x)] *)
Definition push_back (x : SOCKET) (v : list SOCKET) : list SOCKET := v ++ [x].

(** [v.erase(std::remove(v.begin(), v.end(), x), v.end())]: the elements
    different from [x], in their order. *)
Definition erase_remove (x : SOCKET) (v : list SOCKET) : list SOCKET :=
  filter (fun y => negb (y =? x)) v.

(** The [for] loop of [broadcast_message], lines 131-137. *)
Fixpoint send_each (message : string) (sender_socket : SOCKET)
    (sockets : list SOCKET) (w : world) : list event * world :=
  match sockets with
  | [] => ([], w)
  | socket :: rest =>
      if negb (socket =? sender_socket) then
        let (result, w1) := send socket message w in
        let logged :=
          if result =? SOCKET_ERROR
          then [EvCerr ("Send failed with error: " ++ to_string (WSAGetLastError w1))]
          else [] in
        let (evs, w2) := send_each message sender_socket rest w1 in
        (EvSend socket message result :: logged ++ evs, w2)
      else send_each message sender_socket rest w
  end.

(** [void broadcast_message(const std::string &message, SOCKET sender_socket)],
    lines 129-138.  The guard is taken on entry and lives to the end of the
    function. *)
Definition broadcast_message (message : string) (sender_socket : SOCKET)
    (st : state) : list event * state :=
  let (evs, w) := send_each message sender_socket (client_sockets st) (env st) in
  (EvLock :: evs ++ [EvUnlock], with_env st w).

(** [std::string client_id = "Client " + std::to_string(client_socket);] *)
Definition client_id (client_socket : SOCKET) : string :=
  ("Client " ++ to_string client_socket)%string.

(** Lines 151-152: [std::string message(buffer, bytes_received);
    std::string broadcast_msg = client_id + ": " + message;] *)
Definition broadcast_msg (client_socket : SOCKET) (bytes_received : Z)
    (buffer : string) : string :=
  let message := substring 0 (Z.to_nat bytes_received) buffer in
  (client_id client_socket ++ ": " ++ message)%string.

(** Line 163. *)
Definition disconnect_msg (client_socket : SOCKET) : string :=
  (client_id client_socket ++ " has left the chat.")%string.

(** *** The blocks of [handle_client] *)

(** Line 148: the blocking [recv]. *)
Definition receive_chunk (client_socket : SOCKET) (st : state)
    : list event * state * (Z * string) :=
  let '(bytes_received, buffer, w) := recv client_socket BUFFER_SIZE (env st) in
  ([EvRecv client_socket bytes_received], with_env st w, (bytes_received, buffer)).

(** Lines 151-154: the branch [bytes_received > 0]. *)
Definition relay_chunk (client_socket : SOCKET) (bytes_received : Z)
    (buffer : string) (st : state) : list event * state :=
  let msg := broadcast_msg client_socket bytes_received buffer in
  let (evs, st1) := broadcast_message msg client_socket st in
  (EvCout ("Broadcasting: " ++ msg) :: evs, st1).

(** Lines 156-161: the start of the [else] branch. *)
Definition deregister (client_socket : SOCKET) (st : state) : list event * state :=
  ([EvCout (client_id client_socket ++ " disconnected."); EvLock;
    EvErase client_socket; EvUnlock],
   mkState (erase_remove client_socket (client_sockets st)) (env st)).

(** Lines 163-164: [broadcast_message(disconnect_msg, -1)]; the [-1] is
    converted to the parameter's type [SOCKET]. *)
Definition announce_departure (client_socket : SOCKET) (st : state)
    : list event * state :=
  broadcast_message (disconnect_msg client_socket) (to_SOCKET (-1)) st.

(** Line 166. *)
Definition close_stream (client_socket : SOCKET) (st : state) : list event * state :=
  ([EvClose client_socket], with_env st (closesocket client_socket (env st))).

(** One pass through the body of the [while (true)] of [handle_client],
    lines 148-168, run without another thread in between. *)
Definition handle_client_iteration (client_socket : SOCKET) (st : state)
    : list event * state * control :=
  let '(ev0, st0, (bytes_received, buffer)) := receive_chunk client_socket st in
  if 0 <? bytes_received then
    let (ev1, st1) := relay_chunk client_socket bytes_received buffer st0 in
    (ev0 ++ ev1, st1, Continue)
  else
    let (ev1, st1) := deregister client_socket st0 in
    let (ev2, st2) := announce_departure client_socket st1 in
    let (ev3, st3) := close_stream client_socket st2 in
    (ev0 ++ ev1 ++ ev2 ++ ev3, st3, Break).

(** [void handle_client(SOCKET client_socket)], lines 143-170, for at most
    [fuel] passes: [Break] when the loop was left, [Continue] when the
    handler is still in it. *)
Fixpoint handle_client (fuel : nat) (client_socket : SOCKET) (st : state)
    : list event * state * control :=
  match fuel with
  | O => ([], st, Continue)
  | S fuel' =>
      match handle_client_iteration client_socket st with
      | (evs, st1, Break) => (evs, st1, Break)
      | (evs, st1, Continue) =>
          let '(evs', st2, c) := handle_client fuel' client_socket st1 in
          (evs ++ evs', st2, c)
      end
  end.

(** *** The blocks of the accept loop of [main] *)

(** Lines 101-107: [accept], and what is printed.  The result is the
    accepted socket, or [None] after [continue]. *)
Definition accept_client (st : state) : list event * state * option SOCKET :=
  let (client_socket, w) := accept (env st) in
  if client_socket =? INVALID_SOCKET then
    ([EvAccept client_socket;
      EvCerr ("Accept failed with error: " ++ to_string (WSAGetLastError w))],
     with_env st w, None)
  else
    ([EvAccept client_socket; EvCout "New client connected."],
     with_env st w, Some client_socket).

(** Lines 110-113. *)
Definition register_client (client_socket : SOCKET) (st : state)
    : list event * state :=
  ([EvLock; EvPush client_socket; EvUnlock],
   mkState (push_back client_socket (client_sockets st)) (env st)).

(** Line 116. *)
Definition spawn_handler (client_socket : SOCKET) : list event :=
  [EvSpawn client_socket].

(** One pass through the body of the [while (true)] of [main], lines
    101-116.  No path of the body leaves the loop. *)
Definition main_iteration (st : state) : list event * state * control :=
  match accept_client st with
  | (ev0, st0, None) => (ev0, st0, Continue)
  | (ev0, st0, Some client_socket) =>
      let (ev1, st1) := register_client client_socket st0 in
      (ev0 ++ ev1 ++ spawn_handler client_socket, st1, Continue)
  end.

(** The accept loop, lines 100-117, for at most [fuel] passes. *)
Fixpoint main_loop (fuel : nat) (st : state) : list event * state * control :=
  match fuel with
  | O => ([], st, Continue)
  | S fuel' =>
      match main_iteration st with
      | (evs, st1, Break) => (evs, st1, Break)
      | (evs, st1, Continue) =>
          let '(evs', st2, c) := main_loop fuel' st1 in
          (evs ++ evs', st2, c)
      end
  end.

End Server.

(* ===================================================================== *)
(** ** The threads of the server, interleaved *)
(* ===================================================================== *)

Section Scheduler.
Context {T : Transport}.

(** Where the thread of [main] stands in its accept loop. *)
Inductive main_pc : Type :=
| AtAccept                               (* line 101 *)
| AtRegister (client_socket : SOCKET)    (* lines 110-113 *)
| AtSpawn (client_socket : SOCKET).      (* line 116 *)

(** Where a thread running [handle_client] stands. *)
Inductive handler_pc : Type :=
| AtRecv                                         (* line 148 *)
| AtRelay (bytes_received : Z) (buffer : string) (* lines 151-154 *)
| AtDeregister                                   (* lines 156-161 *)
| AtAnnounce                                     (* lines 163-164 *)
| AtClose                                        (* line 166 *)
| Exited.                                        (* after the break of line 167 *)

(** The process: the shared state, the main thread, the handler threads in
    the order they were started, and the handles the transport has given
    out and not yet seen closed. *)
Record system : Type := mkSystem {
  shared : state;
  main_at : main_pc;
  handlers : list (SOCKET * handler_pc);
  open_sockets : list SOCKET
}.

Inductive thread : Type :=
| MainThread
| HandlerThread (i : nat).

Definition initial (w : world) : system :=
  mkSystem (mkState [] w) AtAccept [] [].

Fixpoint set_nth {A : Type} (i : nat) (x : A) (l : list A) : list A :=
  match l, i with
  | [], _ => []
  | _ :: l', O => x :: l'
  | y :: l', S i' => y :: set_nth i' x l'
  end.

Definition mem (x : SOCKET) (l : list SOCKET) : bool := existsb (Z.eqb x) l.

(** The next block of [main].  A handle is given to one open socket at a
    time: a schedule in which [accept] returns a handle that is still open
    is not an execution. *)
Definition main_step (s : system) : option (list event * system) :=
  match main_at s with
  | AtAccept =>
      match accept_client (shared s) with
      | (evs, st, None) =>
          Some (evs, mkSystem st AtAccept (handlers s) (open_sockets s))
      | (evs, st, Some client_socket) =>
          if mem client_socket (open_sockets s) then None
          else Some (evs, mkSystem st (AtRegister client_socket) (handlers s)
                            (client_socket :: open_sockets s))
      end
  | AtRegister client_socket =>
      let (evs, st) := register_client client_socket (shared s) in
      Some (evs, mkSystem st (AtSpawn client_socket) (handlers s) (open_sockets s))
  | AtSpawn client_socket =>
      Some (spawn_handler client_socket,
            mkSystem (shared s) AtAccept
                     (handlers s ++ [(client_socket, AtRecv)]) (open_sockets s))
  end.

(** The next block of a handler; an exited handler has none. *)
Definition handler_step (client_socket : SOCKET) (pc : handler_pc) (st : state)
    : option (list event * state * handler_pc) :=
  match pc with
  | AtRecv =>
      let '(evs, st1, (bytes_received, buffer)) := receive_chunk client_socket st in
      Some (evs, st1,
            if 0 <? bytes_received then AtRelay bytes_received buffer
            else AtDeregister)
  | AtRelay bytes_received buffer =>
      let (evs, st1) := relay_chunk client_socket bytes_received buffer st in
      Some (evs, st1, AtRecv)
  | AtDeregister =>
      let (evs, st1) := deregister client_socket st in Some (evs, st1, AtAnnounce)
  | AtAnnounce =>
      let (evs, st1) := announce_departure client_socket st in Some (evs, st1, AtClose)
  | AtClose =>
      let (evs, st1) := close_stream client_socket st in Some (evs, st1, Exited)
  | Exited => None
  end.

Definition is_close (pc : handler_pc) : bool :=
  match pc with AtClose => true | _ => false end.

(** One scheduling decision: thread [t] runs its next block. *)
Definition sys_step (t : thread) (s : system) : option (list event * system) :=
  match t with
  | MainThread => main_step s
  | HandlerThread i =>
      match nth_error (handlers s) i with
      | None => None
      | Some (client_socket, pc) =>
          match handler_step client_socket pc (shared s) with
          | None => None
          | Some (evs, st, pc') =>
              Some (evs,
                    mkSystem st (main_at s)
                      (set_nth i (client_socket, pc') (handlers s))
                      (if is_close pc then erase_remove client_socket (open_sockets s)
                       else open_sockets s))
          end
      end
  end.

(** A schedule, run from [s]: the events of all threads in the order they
    happen, and the system reached; [None] when the schedule names a thread
    that cannot move. *)
Fixpoint run (schedule : list thread) (s : system) : option (list event * system) :=
  match schedule with
  | [] => Some ([], s)
  | t :: schedule' =>
      match sys_step t s with
      | None => None
      | Some (evs, s1) =>
          match run schedule' s1 with
          | None => None
          | Some (evs', s2) => Some (evs ++ evs', s2)
          end
      end
  end.

(** The systems some schedule reaches from the start of the accept loop. *)
Definition reachable (s : system) : Prop :=
  exists w schedule evs, run schedule (initial w) = Some (evs, s).

End Scheduler.

(* ===================================================================== *)
(** ** The client's send loop: [src/windows/client.cpp] *)
(* ===================================================================== *)

Definition newline : ascii := "010"%char.

(** The characters up to the first newline, and what follows that newline. *)
Fixpoint read_line (cin : string) : string * string :=
  match cin with
  | EmptyString => (EmptyString, EmptyString)
  | String ch rest =>
      if Ascii.eqb ch newline then (EmptyString, rest)
      else let (line, rest') := read_line rest in (String ch line, rest')
  end.

(** [std::getline(std::cin, line)] on the characters [cin] still to be read:
    [None] when the stream is at its end (no character extracted, the stream
    tests false); otherwise the line without its newline, and the rest. *)
Definition getline (cin : string) : option (string * string) :=
  match cin with
  | EmptyString => None
  | String _ _ => Some (read_line cin)
  end.

(** [line.empty()] *)
Definition empty (line : string) : bool :=
  match line with EmptyString => true | String _ _ => false end.

Section Client.
Context {T : Transport}.

(** The [while (std::getline(std::cin, line))] loop of [send_messages],
    lines 125-133. *)
Equations? send_loop (sock : SOCKET) (cin : string) (w : world)
    : list event * world by wf (String.length cin) lt :=
  send_loop sock cin w with inspect (getline cin) := {
    | exist _ None _ => ([], w)
    | exist _ (Some (line, rest)) Hg with empty line := {
        | true =>
            let (evs, w1) := send_loop sock rest w in
            (EvGetline line :: EvCout "> " :: evs, w1)
        | false with send sock line w := {
            | (result, w1) with result =? SOCKET_ERROR := {
                | true =>
                    ([EvGetline line; EvSend sock line result;
                      EvCerr ("Send failed with error: "
                              ++ to_string (WSAGetLastError w1))], w1)
                | false =>
                    let (evs, w2) := send_loop sock rest w1 in
                    (EvGetline line :: EvSend sock line result
                       :: EvCout "> " :: evs, w2) } } } }.
Proof.
  all: assert (Hlen : forall s, (String.length (snd (read_line s)) <= String.length s)%nat)
    by (induction s as [|ch s IH]; simpl; [lia|];
        destruct (Ascii.eqb ch newline); simpl; [lia|];
        destruct (read_line s); simpl in *; lia).
  all: destruct cin as [|ch cin]; simpl in Hg; [discriminate|].
  all: injection Hg as Hg.
  all: destruct (Ascii.eqb ch newline);
    [ injection Hg as _ <-; simpl; lia
    | specialize (Hlen cin); destruct (read_line cin);
      injection Hg as _ <-; simpl in *; lia ].
Qed.

(** [void send_messages(SOCKET sock)], lines 122-134. *)
Definition send_messages (sock : SOCKET) (cin : string) (w : world)
    : list event * world :=
  let (evs, w1) := send_loop sock cin w in (EvCout "> " :: evs, w1).

End Client.

(* ===================================================================== *)
(** ** A scripted transport, to run the programs on *)
(* ===================================================================== *)

(** Winsock error codes, [winerror.h]. *)
Definition WSAENOTSOCK : Z := 10038.
Definition WSAECONNRESET : Z := 10054.

(** What the peers and the network will do: the results of the coming
    [accept] calls, the chunks each socket will still receive, the sockets
    whose peer has gone (a [send] to them fails), and the last error. *)
Record script : Type := mkScript {
  arrivals : list SOCKET;
  chunks : list (SOCKET * string);
  broken : list SOCKET;
  last_error : Z
}.

(** The first chunk waiting for [s], and the chunks without it. *)
Fixpoint take_chunk (s : SOCKET) (l : list (SOCKET * string))
    : option (string * list (SOCKET * string)) :=
  match l with
  | [] => None
  | (s', data) :: l' =>
      if s' =? s then Some (data, l')
      else match take_chunk s l' with
           | None => None
           | Some (d, l'') => Some (d, (s', data) :: l'')
           end
  end.

(** [accept] returns the next arrival; when none is left the listening
    socket is gone and every call fails with [WSAENOTSOCK]. *)
Definition scripted_accept (w : script) : SOCKET * script :=
  match arrivals w with
  | [] => (INVALID_SOCKET, mkScript [] (chunks w) (broken w) WSAENOTSOCK)
  | s :: rest => (s, mkScript rest (chunks w) (broken w) (last_error w))
  end.

(** A buffer of [len] bytes that starts with [data]: [data] cut to [len],
    or followed by zero bytes up to [len]. *)
Fixpoint fill (len : nat) (data : string) : string :=
  match len with
  | O => EmptyString
  | S len' =>
      match data with
      | EmptyString => String zero (fill len' EmptyString)
      | String ch data' => String ch (fill len' data')
      end
  end.

(** [recv] writes the next chunk for the socket into the buffer of [len]
    bytes and returns how many bytes it wrote; when no chunk is left the
    peer has closed and it returns 0. *)
Definition scripted_recv (s : SOCKET) (len : Z) (w : script) : Z * string * script :=
  match take_chunk s (chunks w) with
  | None => (0, fill (Z.to_nat len) EmptyString, w)
  | Some (data, rest) =>
      (Z.min len (Z.of_nat (String.length data)), fill (Z.to_nat len) data,
       mkScript (arrivals w) rest (broken w) (last_error w))
  end.

Definition scripted_send (s : SOCKET) (data : string) (w : script) : Z * script :=
  if mem s (broken w)
  then (SOCKET_ERROR, mkScript (arrivals w) (chunks w) (broken w) WSAECONNRESET)
  else (Z.of_nat (String.length data), w).

#[local] Instance Scripted : Transport := {|
  world := script;
  accept := scripted_accept;
  recv := scripted_recv;
  send := scripted_send;
  closesocket := fun _ w => w;
  WSAGetLastError := last_error
|}.

(* ===================================================================== *)
(** ** Reading a trace *)
(* ===================================================================== *)

(** The [send] calls of a trace, in order: the socket and the bytes. *)
Fixpoint send_log (evs : list event) : list (SOCKET * string) :=
  match evs with
  | [] => []
  | EvSend socket message _ :: rest => (socket, message) :: send_log rest
  | _ :: rest => send_log rest
  end.

(** The sockets sent to, in order. *)
Definition recipients (evs : list event) : list SOCKET := map fst (send_log evs).

(** How many [send] calls of the trace are made on [c]. *)
Definition sends_to (c : SOCKET) (evs : list event) : nat :=
  count_occ Z.eq_dec (recipients evs) c.


(** Every [send] of the trace is made while [clients_mutex] is free;
    [held] tells whether the mutex is held where the trace starts. *)
Fixpoint sends_outside_lock (held : bool) (evs : list event) : bool :=
  match evs with
  | [] => true
  | EvLock :: rest => sends_outside_lock true rest
  | EvUnlock :: rest => sends_outside_lock false rest
  | EvSend _ _ _ :: rest => negb held && sends_outside_lock held rest
  | _ :: rest => sends_outside_lock held rest
  end.

(** Every [send] of the trace is made while [clients_mutex] is held. *)
Fixpoint sends_inside_lock (held : bool) (evs : list event) : bool :=
  match evs with
  | [] => true
  | EvLock :: rest => sends_inside_lock true rest
  | EvUnlock :: rest => sends_inside_lock false rest
  | EvSend _ _ _ :: rest => held && sends_inside_lock held rest
  | _ :: rest => sends_inside_lock held rest
  end.

Definition is_mutex_event (e : event) : bool :=
  match e with EvLock | EvUnlock => true | _ => false end.

Definition send_failure_text : string := "Send failed with error: ".

(** Every [send] of the trace that returned [SOCKET_ERROR] is followed at
    once by its line on [std::cerr]. *)
Fixpoint failures_logged (evs : list event) : bool :=
  match evs with
  | [] => true
  | EvSend _ _ result :: rest =>
      if result =? SOCKET_ERROR then
        match rest with
        | EvCerr text :: rest' => prefix send_failure_text text && failures_logged rest'
        | _ => false
        end
      else failures_logged rest
  | _ :: rest => failures_logged rest
  end.

(** The [send] calls of the trace that returned [SOCKET_ERROR]. *)
Fixpoint failed_sends (evs : list event) : list SOCKET :=
  match evs with
  | [] => []
  | EvSend socket _ result :: rest =>
      if result =? SOCKET_ERROR then socket :: failed_sends rest else failed_sends rest
  | _ :: rest => failed_sends rest
  end.

(** The lines read by [std::getline], in order. *)
Fixpoint lines_read (evs : list event) : list string :=
  match evs with
  | [] => []
  | EvGetline line :: rest => line :: lines_read rest
  | _ :: rest => lines_read rest
  end.

(** The [recv] calls of a trace. *)
Fixpoint receives (evs : list event) : nat :=
  match evs with
  | [] => O
  | EvRecv _ _ :: rest => S (receives rest)
  | _ :: rest => receives rest
  end.

(** The [accept] calls of a trace. *)
Fixpoint accepts (evs : list event) : nat :=
  match evs with
  | [] => O
  | EvAccept _ :: rest => S (accepts rest)
  | _ :: rest => accepts rest
  end.


(** The registry after the [push_back] and [erase] events of a trace, from
    the registry [reg] before it. *)
Fixpoint replay (evs : list event) (reg : list SOCKET) : list SOCKET :=
  match evs with
  | [] => reg
  | EvPush c :: rest => replay rest (reg ++ [c])
  | EvErase c :: rest => replay rest (filter (fun y => negb (y =? c)) reg)
  | _ :: rest => replay rest reg
  end.

(** Every [send] of the trace is made on a socket that is in the registry
    at that moment, the registry being [reg] where the trace starts. *)
Fixpoint sends_registered (evs : list event) (reg : list SOCKET) : bool :=
  match evs with
  | [] => true
  | EvPush c :: rest => sends_registered rest (reg ++ [c])
  | EvErase c :: rest => sends_registered rest (filter (fun y => negb (y =? c)) reg)
  | EvSend c _ _ :: rest => mem c reg && sends_registered rest reg
  | _ :: rest => sends_registered rest reg
  end.

(** The line holds no newline character. *)
Fixpoint no_newline (line : string) : bool :=
  match line with
  | EmptyString => true
  | String ch rest => negb (Ascii.eqb ch newline) && no_newline rest
  end.

(** The lines, each followed by a newline. *)
Fixpoint join_lines (lines : list string) : string :=
  match lines with
  | [] => EmptyString
  | line :: rest => (line ++ String newline (join_lines rest))%string
  end.

(* ===================================================================== *)
(** ** Scripts and schedules used as examples *)
(* ===================================================================== *)

(** Nothing arrives, nobody has gone. *)
Definition quiet : script := mkScript [] [] [] 0.

(** Three clients connect; the peer of 7 has gone; 5 says hello. *)
Definition three_clients : script :=
  mkScript [5; 6; 7] [(5, "hello"%string)] [7] 0.

(** The main thread accepts, registers and spawns three times. *)
Definition accept_three : list thread :=
  [MainThread; MainThread; MainThread; MainThread; MainThread; MainThread;
   MainThread; MainThread; MainThread].

(** The system after [accept_three] on [three_clients]. *)
Definition lobby : system :=
  mkSystem (mkState [5; 6; 7] (mkScript [] [(5, "hello"%string)] [7] 0))
           AtAccept [(5, AtRecv); (6, AtRecv); (7, AtRecv)] [7; 6; 5].

(** Client 6 connects, leaves, and its handle is given to a new client;
    then 5 speaks. *)
Definition handle_reused : script :=
  mkScript [5; 6; 6] [(5, "hi"%string)] [] 0.

Definition reuse_schedule : list thread :=
  [MainThread; MainThread; MainThread;            (* 5 accepted, registered, spawned *)
   MainThread; MainThread; MainThread;            (* 6 likewise *)
   HandlerThread 1; HandlerThread 1;              (* 6: recv returns 0, erase *)
   HandlerThread 1; HandlerThread 1;              (* 6: notice, closesocket *)
   MainThread; MainThread; MainThread;            (* the handle 6 again *)
   HandlerThread 0; HandlerThread 0].             (* 5: recv, relay *)

(** A chunk of two lines, and the world in which socket 5 receives it. *)
Definition two_lines : string :=
  ("one" ++ String newline "two" ++ String newline "")%string.

Definition chatty : script := mkScript [] [(5, two_lines)] [] 0.

(** What the run of [reuse_schedule] on [handle_reused] does before handler
    6 erases its socket, from there until the handle 6 is pushed again, and
    from that push on. *)
Definition before_erase : list event :=
  [EvAccept 5; EvCout "New client connected."; EvLock; EvPush 5; EvUnlock; EvSpawn 5;
   EvAccept 6; EvCout "New client connected."; EvLock; EvPush 6; EvUnlock; EvSpawn 6;
   EvRecv 6 0; EvCout "Client 6 disconnected."; EvLock].

Definition until_push : list event :=
  [EvUnlock; EvLock; EvSend 5 "Client 6 has left the chat." 27; EvUnlock;
   EvClose 6; EvAccept 6; EvCout "New client connected."; EvLock].

Definition from_push : list event :=
  [EvPush 6; EvUnlock; EvSpawn 6; EvRecv 5 2; EvCout "Broadcasting: Client 5: hi";
   EvLock; EvSend 6 "Client 5: hi" 12; EvUnlock].

(** A server state on the scripted transport. *)
Definition scripted_state (registry : list SOCKET) (w : script) : @state Scripted :=
  @mkState Scripted registry w.

From Stdlib Require DecimalPos DecimalZ.

(* ===================================================================== *)
(** ** More readings of a trace *)
(* ===================================================================== *)

(** The results of the [accept] calls, in order. *)
Fixpoint accepted (evs : list event) : list SOCKET :=
  match evs with
  | [] => []
  | EvAccept c :: rest => c :: accepted rest
  | _ :: rest => accepted rest
  end.

(** The sockets pushed on [client_sockets], in order. *)
Fixpoint pushed (evs : list event) : list SOCKET :=
  match evs with
  | [] => []
  | EvPush c :: rest => c :: pushed rest
  | _ :: rest => pushed rest
  end.


(** The sockets erased from [client_sockets], in order. *)
Fixpoint erased (evs : list event) : list SOCKET :=
  match evs with
  | [] => []
  | EvErase c :: rest => c :: erased rest
  | _ :: rest => erased rest
  end.

(** The sockets given to [closesocket], in order. *)
Fixpoint closed (evs : list event) : list SOCKET :=
  match evs with
  | [] => []
  | EvClose c :: rest => c :: closed rest
  | _ :: rest => closed rest
  end.

(** The results of the [recv] calls, in order. *)
Fixpoint received (evs : list event) : list Z :=
  match evs with
  | [] => []
  | EvRecv _ n :: rest => n :: received rest
  | _ :: rest => received rest
  end.

(** The texts written on [std::cout], in order. *)
Fixpoint printed (evs : list event) : list string :=
  match evs with
  | [] => []
  | EvCout text :: rest => text :: printed rest
  | _ :: rest => printed rest
  end.


(** The system a schedule leads to on the scripted transport (the initial
    system when the schedule names a thread that cannot move). *)
Definition after (schedule : list thread) (w : script) : @system Scripted :=
  match @run Scripted schedule (@initial Scripted w) with
  | Some (_, s) => s
  | None => @initial Scripted w
  end.

(** Three clients are connected and 5 has received its chunk. *)
Definition relaying : system := after (accept_three ++ [HandlerThread 0]) three_clients.

(** Three clients are connected; the peer of 6 has closed and the handler
    of 6 has erased 6. *)
Definition announcing : system :=
  after (accept_three ++ [HandlerThread 1; HandlerThread 1]) three_clients.

(** The handler of 6 has sent its notice and stands before [closesocket]. *)
Definition closing : system :=
  after (accept_three ++ [HandlerThread 1; HandlerThread 1; HandlerThread 1])
        three_clients.

(** The string holds no character [ch]. *)
Fixpoint free_of (ch : ascii) (s : string) : bool :=
  match s with
  | EmptyString => true
  | String x rest => negb (Ascii.eqb x ch) && free_of ch rest
  end.

(* ===================================================================== *)
(** ** The client's receive loop: [src/windows/client.cpp] *)
(* ===================================================================== *)

Definition carriage_return : ascii := "013"%char.

Definition closed_text : string := "Server closed the connection.".

Section Receiver.
Context {T : Transport}.

(** [void receive_messages(SOCKET sock)], lines 106-117, for at most [fuel]
    passes: [Break] when the loop was left, [Continue] when the thread is
    still in it.  A chunk is shown as a carriage return and the bytes
    received, ended by [std::endl], and followed by a new prompt. *)
Fixpoint receive_messages (fuel : nat) (sock : SOCKET) (w : world)
    : list event * world * control :=
  match fuel with
  | O => ([], w, Continue)
  | S fuel' =>
      let '(bytes_received, buffer, w1) := recv sock BUFFER_SIZE w in
      if 0 <? bytes_received then
        let '(evs, w2, c) := receive_messages fuel' sock w1 in
        (EvRecv sock bytes_received
           :: EvCout (String carriage_return
                             (substring 0 (Z.to_nat bytes_received) buffer))
           :: EvCout "> " :: evs,
         w2, c)
      else
        ([EvRecv sock bytes_received; EvCout closed_text], w1, Break)
  end.

End Receiver.

(* ===================================================================== *)
(** ** Start-up and shutdown: the two [main] functions *)
(* ===================================================================== *)

(** The implicit conversion of an [int] argument to [u_short]. *)
Definition to_u_short (v : Z) : Z := v mod 2 ^ 16.

(** [htons] on the little-endian target: the two bytes swapped. *)
Definition htons (hostshort : Z) : Z :=
  Z.lor (Z.shiftl (Z.land hostshort 255) 8) (Z.shiftr hostshort 8).

(** The rest of Winsock and of the standard library that the two [main]
    functions call.  [stoi] is [None] when [std::stoi] throws. *)
Class Winsock : Type := {
  transport :: Transport;
  (** [WSAStartup(MAKEWORD(2, 2), &wsaData)] *)
  WSAStartup : world -> Z * world;
  WSACleanup : world -> world;
  (** [socket(AF_INET, SOCK_STREAM, IPPROTO_TCP)] *)
  new_socket : world -> SOCKET * world;
  (** [bind] to [INADDR_ANY] and the given [sin_port] *)
  bind : SOCKET -> Z -> world -> Z * world;
  (** [listen(s, SOMAXCONN)] *)
  listen : SOCKET -> world -> Z * world;
  (** [inet_pton(AF_INET, text, &addr)]: the return value *)
  inet_pton : string -> Z;
  (** [connect] to the address parsed from the text and the given [sin_port] *)
  connect : SOCKET -> string -> Z -> world -> Z * world;
  stoi : string -> option Z
}.

Inductive client_thread : Type := Receiver | Sender.

(** What a [main] function does, in program order. *)
Inductive boot_event : Type :=
| BtStartup (result : Z)
| BtCleanup
| BtSocket (result : SOCKET)
| BtBind (s : SOCKET) (sin_port : Z) (result : Z)
| BtListen (s : SOCKET) (result : Z)
| BtPton (text : string) (result : Z)
| BtConnect (s : SOCKET) (text : string) (sin_port : Z) (result : Z)
| BtStart (t : client_thread)            (* std::thread constructed *)
| BtJoin (t : client_thread)
| BtDetach (t : client_thread)
| BtRun (e : event).                     (* an event of the kinds above *)

(** How a [main] ends, as far as it was run. *)
Inductive outcome : Type :=
| Returned (code : Z)
| Threw              (* std::stoi threw and nothing catches: std::terminate *)
| Looping.           (* still in the accept loop *)

Section Mains.
Context {W : Winsock}.
#[local] Existing Instance transport | 0.

(** [bool InitializeWinsock()], the same in both files. *)
Definition InitializeWinsock (w : world) : list boot_event * world * bool :=
  let (result, w1) := WSAStartup w in
  if negb (result =? 0)
  then ([BtStartup result; BtRun (EvCerr "WSAStartup failed.")], w1, false)
  else ([BtStartup result], w1, true).

(** [int main(int argc, char *argv[])] of the server, lines 56-124, with
    the accept loop run for at most [fuel] passes.  [argv0] is [argv[0]]
    and [args] the arguments after it. *)
Definition server_main (fuel : nat) (argv0 : string) (args : list string) (w : world)
    : list boot_event * world * outcome :=
  match args with
  | [] =>
      ([BtRun (EvCerr ("Usage: " ++ argv0 ++ " <port>"))], w, Returned 1)
  | port_arg :: _ =>
      let '(ev0, w0, ok) := InitializeWinsock w in
      if negb ok then (ev0, w0, Returned 1)
      else
        match stoi port_arg with
        | None => (ev0, w0, Threw)
        | Some port =>
            let (server_socket, w1) := new_socket w0 in
            if server_socket =? INVALID_SOCKET then
              (ev0 ++ [BtSocket server_socket;
                       BtRun (EvCerr ("Socket creation failed with error: "
                                      ++ to_string (WSAGetLastError w1)));
                       BtCleanup],
               WSACleanup w1, Returned 1)
            else
              let (bound, w2) := bind server_socket (htons (to_u_short port)) w1 in
              if bound =? SOCKET_ERROR then
                (ev0 ++ [BtSocket server_socket;
                         BtBind server_socket (htons (to_u_short port)) bound;
                         BtRun (EvCerr ("Bind failed with error: "
                                        ++ to_string (WSAGetLastError w2)));
                         BtRun (EvClose server_socket); BtCleanup],
                 WSACleanup (closesocket server_socket w2), Returned 1)
              else
                let (listening, w3) := listen server_socket w2 in
                if listening =? SOCKET_ERROR then
                  (ev0 ++ [BtSocket server_socket;
                           BtBind server_socket (htons (to_u_short port)) bound;
                           BtListen server_socket listening;
                           BtRun (EvCerr ("Listen failed with error: "
                                          ++ to_string (WSAGetLastError w3)));
                           BtRun (EvClose server_socket); BtCleanup],
                   WSACleanup (closesocket server_socket w3), Returned 1)
                else
                  let '(evs, st, c) := main_loop fuel (mkState [] w3) in
                  let served :=
                    ev0 ++ [BtSocket server_socket;
                            BtBind server_socket (htons (to_u_short port)) bound;
                            BtListen server_socket listening;
                            BtRun (EvCout ("Server listening on port "
                                           ++ to_string port ++ "..."))]
                        ++ map BtRun evs in
                  match c with
                  | Continue => (served, env st, Looping)
                  | Break =>
                      (served ++ [BtRun (EvClose server_socket); BtCleanup],
                       WSACleanup (closesocket server_socket (env st)), Returned 0)
                  end
        end
  end.

(** [int main(int argc, char *argv[])] of the client, lines 44-101, on the
    input [cin]: what the main thread and the send thread it waits for do.
    The receive thread runs [receive_messages] beside them. *)
Definition client_main (argv0 : string) (args : list string) (cin : string) (w : world)
    : list boot_event * world * outcome :=
  match args with
  | [] | [_] =>
      ([BtRun (EvCerr ("Usage: " ++ argv0 ++ " <server_ip> <port>"))], w, Returned 1)
  | server_ip :: port_arg :: _ =>
      let '(ev0, w0, ok) := InitializeWinsock w in
      if negb ok then (ev0, w0, Returned 1)
      else
        match stoi port_arg with
        | None => (ev0, w0, Threw)
        | Some port =>
            let (sock, w1) := new_socket w0 in
            if sock =? INVALID_SOCKET then
              (ev0 ++ [BtSocket sock;
                       BtRun (EvCerr ("Socket creation failed with error: "
                                      ++ to_string (WSAGetLastError w1)));
                       BtCleanup],
               WSACleanup w1, Returned 1)
            else if inet_pton server_ip <=? 0 then
              (ev0 ++ [BtSocket sock; BtPton server_ip (inet_pton server_ip);
                       BtRun (EvCerr "Invalid address/ Address not supported");
                       BtRun (EvClose sock); BtCleanup],
               WSACleanup (closesocket sock w1), Returned 1)
            else
              let (connected, w2) :=
                connect sock server_ip (htons (to_u_short port)) w1 in
              if connected =? SOCKET_ERROR then
                (ev0 ++ [BtSocket sock; BtPton server_ip (inet_pton server_ip);
                         BtConnect sock server_ip (htons (to_u_short port)) connected;
                         BtRun (EvCerr ("Connection Failed with error: "
                                        ++ to_string (WSAGetLastError w2)));
                         BtRun (EvClose sock); BtCleanup],
                 WSACleanup (closesocket sock w2), Returned 1)
              else
                let (evs, w3) := send_messages sock cin w2 in
                (ev0 ++ [BtSocket sock; BtPton server_ip (inet_pton server_ip);
                         BtConnect sock server_ip (htons (to_u_short port)) connected;
                         BtRun (EvCout "Connected to the server. You can start chatting!");
                         BtRun (EvCout "Type your message and press Enter to send.");
                         BtStart Receiver; BtStart Sender]
                     ++ map BtRun evs
                     ++ [BtJoin Sender; BtDetach Receiver; BtRun (EvClose sock); BtCleanup],
                 WSACleanup (closesocket sock w3), Returned 0)
        end
  end.

End Mains.

(** *** Reading the trace of a [main] *)

(** The events of the loops inside a [main] trace. *)
Fixpoint ran (evs : list boot_event) : list event :=
  match evs with
  | [] => []
  | BtRun e :: rest => e :: ran rest
  | _ :: rest => ran rest
  end.

(** How many times [WSAStartup] succeeded. *)
Fixpoint startups (evs : list boot_event) : nat :=
  match evs with
  | [] => O
  | BtStartup result :: rest => if result =? 0 then S (startups rest) else startups rest
  | _ :: rest => startups rest
  end.

Fixpoint cleanups (evs : list boot_event) : nat :=
  match evs with
  | [] => O
  | BtCleanup :: rest => S (cleanups rest)
  | _ :: rest => cleanups rest
  end.

(** The sockets [socket] created. *)
Fixpoint created (evs : list boot_event) : list SOCKET :=
  match evs with
  | [] => []
  | BtSocket result :: rest =>
      if result =? INVALID_SOCKET then created rest else result :: created rest
  | _ :: rest => created rest
  end.

(** The threads started. *)
Fixpoint started (evs : list boot_event) : list client_thread :=
  match evs with
  | [] => []
  | BtStart t :: rest => t :: started rest
  | _ :: rest => started rest
  end.

(** The [sin_port] of each [bind] and [connect]. *)
Fixpoint ports (evs : list boot_event) : list Z :=
  match evs with
  | [] => []
  | BtBind _ p _ :: rest => p :: ports rest
  | BtConnect _ _ p _ :: rest => p :: ports rest
  | _ :: rest => ports rest
  end.

(** A line on [std::cout]. *)
Definition is_cout (e : boot_event) : bool :=
  match e with BtRun (EvCout _) => true | _ => false end.

(* ===================================================================== *)
(** ** A scripted start-up *)
(* ===================================================================== *)

(** What the start-up calls will return. *)
Record plan : Type := mkPlan {
  startup_result : Z;
  socket_result : SOCKET;
  bind_result : Z;
  listen_result : Z;
  connect_result : Z
}.

Definition Planned : Transport := {|
  world := plan * script;
  accept := fun w => let (c, s) := scripted_accept (snd w) in (c, (fst w, s));
  recv := fun c len w =>
            let '(n, buffer, s) := scripted_recv c len (snd w) in (n, buffer, (fst w, s));
  send := fun c data w => let (r, s) := scripted_send c data (snd w) in (r, (fst w, s));
  closesocket := fun _ w => w;
  WSAGetLastError := fun w => last_error (snd w)
|}.

(** The text as a decimal number, when it is one: what [std::stoi] does on
    the texts used below. *)
Definition decimal (text : string) : option Z :=
  match NilZero.int_of_string text with
  | Some d => Some (Z.of_int d)
  | None => None
  end.

Definition PlannedWinsock : Winsock := {|
  transport := Planned;
  WSAStartup := fun w => (startup_result (fst w), w);
  WSACleanup := fun w => w;
  new_socket := fun w => (socket_result (fst w), w);
  bind := fun _ _ w => (bind_result (fst w), w);
  listen := fun _ w => (listen_result (fst w), w);
  inet_pton := fun text => if String.eqb text "127.0.0.1" then 1 else 0;
  connect := fun _ _ _ w => (connect_result (fst w), w);
  stoi := decimal
|}.

(** Every start-up call succeeds; the socket created is 100. *)
Definition smooth : plan := mkPlan 0 100 0 0 0.
(* ===================================================================== *)
(** ** Facts about traces and about the registry operations *)
(* ===================================================================== *)

Lemma send_log_app (a b : list event) : send_log (a ++ b) = send_log a ++ send_log b.
Proof.
  induction a as [|e a IH]; simpl; [reflexivity|].
  destruct e; simpl; rewrite ?IH; reflexivity.
Qed.

Lemma recipients_app (a b : list event) : recipients (a ++ b) = recipients a ++ recipients b.
Proof. unfold recipients. rewrite send_log_app. apply map_app. Qed.



Lemma receives_app (a b : list event) : receives (a ++ b) = (receives a + receives b)%nat.
Proof.
  induction a as [|e a IH]; simpl; [reflexivity|].
  destruct e; simpl; rewrite ?IH; reflexivity.
Qed.

Lemma accepts_app (a b : list event) : accepts (a ++ b) = (accepts a + accepts b)%nat.
Proof.
  induction a as [|e a IH]; simpl; [reflexivity|].
  destruct e; simpl; rewrite ?IH; reflexivity.
Qed.


Lemma In_erase_remove (x c : SOCKET) (v : list SOCKET) :
  In c (erase_remove x v) <-> In c v /\ c <> x.
Proof.
  unfold erase_remove. rewrite filter_In.
  destruct (Z.eqb_spec c x); simpl; intuition congruence.
Qed.

Lemma erase_remove_absent (x : SOCKET) (v : list SOCKET) :
  ~ In x v -> erase_remove x v = v.
Proof.
  induction v as [|y v IH]; simpl; intros H; [reflexivity|].
  destruct (Z.eqb_spec y x) as [->|Hne]; simpl.
  - exfalso. apply H. left. reflexivity.
  - rewrite IH; [reflexivity | intuition].
Qed.

Lemma erase_remove_gone (x : SOCKET) (v : list SOCKET) : ~ In x (erase_remove x v).
Proof. rewrite In_erase_remove. intuition. Qed.

Lemma erase_remove_NoDup (x : SOCKET) (v : list SOCKET) :
  NoDup v -> NoDup (erase_remove x v).
Proof. apply NoDup_filter. Qed.

Lemma mem_In (x : SOCKET) (l : list SOCKET) : mem x l = true <-> In x l.
Proof.
  unfold mem. rewrite existsb_exists. split.
  - intros [y [Hy Heq]]. apply Z.eqb_eq in Heq. subst. exact Hy.
  - intros H. exists x. split; [exact H | apply Z.eqb_refl].
Qed.

Lemma INVALID_SOCKET_minus_one : to_SOCKET (-1) = INVALID_SOCKET.
Proof. reflexivity. Qed.

Section ServerFacts.
Context {T : Transport}.

(** *** The relay *)

(** The loop sends [message], once for each entry of the vector that is not
    the sender, in the vector's order, whatever the sends return. *)
Lemma send_each_log (message : string) (s : SOCKET) (l : list SOCKET) (w : world) :
  send_log (fst (send_each message s l w))
  = map (fun c => (c, message)) (erase_remove s l).
Proof.
  revert w. induction l as [|c l IH]; intros w; simpl; [reflexivity|].
  destruct (Z.eqb_spec c s) as [->|Hne]; simpl.
  - apply IH.
  - destruct (send c message w) as [r w1].
    specialize (IH w1). destruct (send_each message s l w1) as [evs w2].
    simpl in *. rewrite send_log_app.
    destruct (r =? SOCKET_ERROR); simpl; rewrite IH; reflexivity.
Qed.

Lemma send_each_failures_logged (message : string) (s : SOCKET) (l : list SOCKET)
    (w : world) :
  failures_logged (fst (send_each message s l w)) = true.
Proof.
  revert w. induction l as [|c l IH]; intros w; simpl; [reflexivity|].
  destruct (negb (c =? s)); [|apply IH].
  destruct (send c message w) as [r w1].
  specialize (IH w1). destruct (send_each message s l w1) as [evs w2].
  simpl in *. destruct (r =? SOCKET_ERROR); simpl; [|exact IH].
  rewrite IH. destruct (to_string (WSAGetLastError w1)); reflexivity.
Qed.

Lemma send_each_no_mutex (message : string) (s : SOCKET) (l : list SOCKET) (w : world) :
  forallb (fun e => negb (is_mutex_event e)) (fst (send_each message s l w)) = true.
Proof.
  revert w. induction l as [|c l IH]; intros w; simpl; [reflexivity|].
  destruct (negb (c =? s)); [|apply IH].
  destruct (send c message w) as [r w1].
  specialize (IH w1). destruct (send_each message s l w1) as [evs w2].
  simpl in *. destruct (r =? SOCKET_ERROR); simpl; exact IH.
Qed.

Lemma no_mutex_inside (evs : list event) (tail : list event) (held : bool) :
  forallb (fun e => negb (is_mutex_event e)) evs = true ->
  held = true ->
  sends_inside_lock held (evs ++ tail) = sends_inside_lock held tail.
Proof.
  intros H ->. induction evs as [|e evs IH]; simpl in *; [reflexivity|].
  apply andb_prop in H as [He H]. destruct e; simpl in *; try discriminate; auto.
Qed.


Lemma failures_logged_app_bounded (b : list event) (n : nat) :
  failures_logged b = true ->
  forall a, (List.length a <= n)%nat ->
    failures_logged a = true -> failures_logged (a ++ b) = true.
Proof.
  intros Hb. induction n as [|n IH]; intros l Hlen.
  - destruct l; simpl in *; [auto | lia].
  - destruct l as [|e l]; simpl in *; [auto|].
    destruct e; simpl; try (apply IH; lia).
    destruct (result =? SOCKET_ERROR); [|apply IH; lia].
    destruct l as [|e' l]; [discriminate|].
    destruct e'; try discriminate. simpl.
    intros H. apply andb_prop in H as [Hp H]. rewrite Hp. simpl.
    apply IH; [simpl in Hlen; lia | exact H].
Qed.

Lemma failures_logged_app (a b : list event) :
  failures_logged a = true -> failures_logged b = true ->
  failures_logged (a ++ b) = true.
Proof.
  intros Ha Hb. apply (failures_logged_app_bounded b (List.length a)); auto.
Qed.

Lemma broadcast_message_events (message : string) (s : SOCKET) (st : state) :
  fst (broadcast_message message s st)
  = EvLock :: fst (send_each message s (client_sockets st) (env st)) ++ [EvUnlock].
Proof.
  unfold broadcast_message.
  destruct (send_each message s (client_sockets st) (env st)); reflexivity.
Qed.

Lemma broadcast_message_registry (message : string) (s : SOCKET) (st : state) :
  client_sockets (snd (broadcast_message message s st)) = client_sockets st.
Proof.
  unfold broadcast_message.
  destruct (send_each message s (client_sockets st) (env st)); reflexivity.
Qed.

Lemma broadcast_message_log (message : string) (s : SOCKET) (st : state) :
  send_log (fst (broadcast_message message s st))
  = map (fun c => (c, message)) (erase_remove s (client_sockets st)).
Proof.
  rewrite broadcast_message_events. simpl. rewrite send_log_app, send_each_log.
  simpl. apply app_nil_r.
Qed.

Lemma broadcast_message_recipients (message : string) (s : SOCKET) (st : state) :
  recipients (fst (broadcast_message message s st)) = erase_remove s (client_sockets st).
Proof.
  unfold recipients. rewrite broadcast_message_log, map_map. simpl. apply map_id.
Qed.

Lemma sends_to_broadcast (message : string) (s c : SOCKET) (st : state) :
  sends_to c (fst (broadcast_message message s st))
  = if c =? s then O else count_occ Z.eq_dec (client_sockets st) c.
Proof.
  unfold sends_to. rewrite broadcast_message_recipients.
  induction (client_sockets st) as [|y v IH]; simpl.
  - destruct (c =? s); reflexivity.
  - destruct (Z.eqb_spec y s) as [->|Hne]; simpl.
    + rewrite IH. destruct (Z.eqb_spec c s) as [->|Hcs]; [reflexivity|].
      destruct (Z.eq_dec s c); [congruence | reflexivity].
    + rewrite IH. destruct (Z.eq_dec y c) as [->|Hyc]; [|reflexivity].
      destruct (Z.eqb_spec c s); [congruence | reflexivity].
Qed.

End ServerFacts.

(* ===================================================================== *)
(** ** What every schedule preserves *)
(* ===================================================================== *)

Lemma nth_error_set_nth {A : Type} (l : list A) (i j : nat) (x y : A) :
  nth_error l i = Some y ->
  nth_error (set_nth i x l) j = if Nat.eqb i j then Some x else nth_error l j.
Proof.
  revert i j. induction l as [|z l IH]; intros [|i] [|j]; simpl; intros H;
    try discriminate; try reflexivity.
  apply IH. exact H.
Qed.

Lemma nth_error_snoc {A : Type} (l : list A) (x y : A) (j : nat) :
  nth_error (l ++ [x]) j = Some y ->
  nth_error l j = Some y \/ (j = List.length l /\ y = x).
Proof.
  revert j. induction l as [|z l IH]; intros [|j]; simpl; intros H.
  - right. split; [reflexivity | congruence].
  - destruct j; discriminate.
  - left. exact H.
  - destruct (IH j H) as [H1|[H1 H2]]; [left; exact H1 | right; split; congruence].
Qed.

Section SchedulerFacts.
Context {T : Transport}.

(** A handler thread on [c] that has not exited. *)
Definition live (hs : list (SOCKET * handler_pc)) (c : SOCKET) : Prop :=
  exists i pc, nth_error hs i = Some (c, pc) /\ pc <> Exited.

(** The handler has passed its [erase] and not yet closed its socket. *)
Definition deregistered (pc : handler_pc) : Prop := pc = AtAnnounce \/ pc = AtClose.

(** The invariant of the process: the registry holds each handle at most
    once, never [INVALID_SOCKET], and only open handles; an open handle has
    at most one handler, and a handler past its [erase] is not registered. *)
Record invariant (s : system) : Prop := mkInvariant {
  inv_nodup : NoDup (client_sockets (shared s));
  inv_valid : ~ In INVALID_SOCKET (client_sockets (shared s));
  inv_reg_open : forall c, In c (client_sockets (shared s)) -> In c (open_sockets s);
  inv_live_open : forall c, live (handlers s) c -> In c (open_sockets s);
  inv_live_once : forall i j c pi pj,
      nth_error (handlers s) i = Some (c, pi) ->
      nth_error (handlers s) j = Some (c, pj) ->
      pi <> Exited -> pj <> Exited -> i = j;
  inv_gone : forall i c pc,
      nth_error (handlers s) i = Some (c, pc) -> deregistered pc ->
      ~ In c (client_sockets (shared s));
  inv_main :
      match main_at s with
      | AtAccept => True
      | AtRegister c =>
          In c (open_sockets s) /\ ~ In c (client_sockets (shared s))
          /\ c <> INVALID_SOCKET /\ ~ live (handlers s) c
      | AtSpawn c => In c (open_sockets s) /\ ~ live (handlers s) c
      end
}.

Lemma invariant_initial (w : world) : invariant (initial w).
Proof.
  constructor; simpl; try tauto.
  - constructor.
  - intros c [i [pc [H _]]]. destruct i; discriminate.
  - intros i j c pi pj H. destruct i; discriminate.
Qed.

(** What one block of a handler does to the registry and to its own
    program counter. *)
Lemma handler_step_summary (c : SOCKET) (pc pc' : handler_pc) (st st' : state)
    (evs : list event) :
  handler_step c pc st = Some (evs, st', pc') ->
  pc <> Exited
  /\ (is_close pc = true <-> pc' = Exited)
  /\ (deregistered pc' -> pc = AtDeregister \/ deregistered pc)
  /\ client_sockets st'
     = match pc with
       | AtDeregister => erase_remove c (client_sockets st)
       | _ => client_sockets st
       end.
Proof.
  unfold deregistered. destruct pc; simpl.
  - unfold receive_chunk.
    destruct (recv c BUFFER_SIZE (env st)) as [[n buf] w]. intros H.
    injection H as <- <- <-. simpl.
    destruct (0 <? n); repeat split; try discriminate; intuition discriminate.
  - intros H. pose proof (broadcast_message_registry
                            (broadcast_msg c bytes_received buffer) c st) as Hr.
    unfold relay_chunk in H.
    destruct (broadcast_message (broadcast_msg c bytes_received buffer) c st).
    injection H as <- <- <-. simpl in Hr.
    repeat split; try discriminate; intuition discriminate.
  - intros H. injection H as <- <- <-. simpl.
    repeat split; try discriminate; intuition discriminate.
  - intros H. pose proof (broadcast_message_registry
                            (disconnect_msg c) (to_SOCKET (-1)) st) as Hr.
    unfold announce_departure in H.
    destruct (broadcast_message (disconnect_msg c) (to_SOCKET (-1)) st).
    injection H as <- <- <-. simpl in Hr.
    repeat split; try discriminate; intuition discriminate.
  - intros H. injection H as <- <- <-. simpl.
    repeat split; try discriminate; intuition discriminate.
  - discriminate.
Qed.

Lemma invariant_handler_step (i : nat) (s s' : system) (evs : list event) :
  invariant s -> sys_step (HandlerThread i) s = Some (evs, s') -> invariant s'.
Proof.
  intros Inv. simpl.
  destruct (nth_error (handlers s) i) as [[c pc]|] eqn:Hi; [|discriminate].
  destruct (handler_step c pc (shared s)) as [[[evs0 st] pc']|] eqn:Hstep;
    [|discriminate].
  intros H. injection H as <- <-.
  apply handler_step_summary in Hstep as (Hpc & Hclose & Hder & Hreg).
  assert (Hsub : forall x, In x (client_sockets st) -> In x (client_sockets (shared s))).
  { intros x. rewrite Hreg. destruct pc; auto. rewrite In_erase_remove. tauto. }
  assert (Hnd : NoDup (client_sockets st)).
  { rewrite Hreg. destruct pc; try apply (inv_nodup s Inv).
    apply erase_remove_NoDup, (inv_nodup s Inv). }
  assert (Hself : deregistered pc' -> ~ In c (client_sockets st)).
  { intros Hd. destruct (Hder Hd) as [->|Hd'].
    - rewrite Hreg. apply erase_remove_gone.
    - intros Hin. apply (inv_gone s Inv i c pc Hi Hd'), Hsub, Hin. }
  assert (Hclosed : is_close pc = true -> ~ In c (client_sockets (shared s))).
  { intros Hc. apply (inv_gone s Inv i c pc Hi). right.
    destruct pc; try discriminate. reflexivity. }
  assert (Hlive_c : live (handlers s) c) by (exists i, pc; auto).
  assert (Hnth : forall j, nth_error (set_nth i (c, pc') (handlers s)) j
                           = if Nat.eqb i j then Some (c, pc') else nth_error (handlers s) j).
  { intros j. apply (nth_error_set_nth _ _ _ _ _ Hi). }
  assert (Hlive : forall x, live (set_nth i (c, pc') (handlers s)) x -> live (handlers s) x).
  { intros x [j [p [Hj Hp]]]. rewrite Hnth in Hj.
    destruct (Nat.eqb_spec i j) as [<-|Hij].
    - injection Hj as <- <-. exact Hlive_c.
    - exists j, p. auto. }
  assert (Hopen : forall x, In x (open_sockets s) -> (is_close pc = true -> x <> c) ->
            In x (if is_close pc then erase_remove c (open_sockets s) else open_sockets s)).
  { intros x Hx Hne. destruct (is_close pc); [|exact Hx].
    apply In_erase_remove. auto. }
  constructor; simpl.
  - exact Hnd.
  - intros Hin. apply (inv_valid s Inv), Hsub, Hin.
  - intros x Hx. apply Hopen; [apply (inv_reg_open s Inv), Hsub, Hx|].
    intros Hc ->. apply (Hclosed Hc), Hsub, Hx.
  - intros x Hx. apply Hopen; [apply (inv_live_open s Inv), Hlive, Hx|].
    intros Hc ->. destruct Hx as [j [p [Hj Hp]]]. rewrite Hnth in Hj.
    destruct (Nat.eqb_spec i j) as [<-|Hij].
    + injection Hj as <-. apply Hp, Hclose, Hc.
    + apply Hij. apply (inv_live_once s Inv i j c pc p); auto.
  - intros j k x pj pk Hj Hk Hpj Hpk. rewrite Hnth in Hj, Hk.
    destruct (Nat.eqb_spec i j) as [<-|Hij]; destruct (Nat.eqb_spec i k) as [<-|Hik].
    + reflexivity.
    + injection Hj as <- <-. apply (inv_live_once s Inv i k c pc pk); auto.
    + injection Hk as <- <-. apply (inv_live_once s Inv j i c pj pc); auto.
    + apply (inv_live_once s Inv j k x pj pk); auto.
  - intros j x p Hj Hd. rewrite Hnth in Hj.
    destruct (Nat.eqb_spec i j) as [<-|Hij].
    + injection Hj as <- <-. apply Hself, Hd.
    + intros Hin. apply (inv_gone s Inv j x p Hj Hd), Hsub, Hin.
  - pose proof (inv_main s Inv) as Hm. destruct (main_at s) as [|m|m]; [exact I| |].
    + destruct Hm as (Ho & Hr & Hv & Hl). repeat split.
      * apply Hopen; [exact Ho|]. intros _ ->. apply Hl, Hlive_c.
      * intros Hin. apply Hr, Hsub, Hin.
      * exact Hv.
      * intros Hx. apply Hl, Hlive, Hx.
    + destruct Hm as (Ho & Hl). split.
      * apply Hopen; [exact Ho|]. intros _ ->. apply Hl, Hlive_c.
      * intros Hx. apply Hl, Hlive, Hx.
Qed.

Lemma invariant_main_step (s s' : system) (evs : list event) :
  invariant s -> sys_step MainThread s = Some (evs, s') -> invariant s'.
Proof.
  intros Inv. simpl. unfold main_step.
  pose proof (inv_main s Inv) as Hm.
  destruct (main_at s) as [|m|m] eqn:Hat.
  - unfold accept_client. destruct (accept (env (shared s))) as [m w].
    destruct (Z.eqb_spec m INVALID_SOCKET) as [->|Hv].
    + intros H. injection H as <- <-.
      constructor; simpl; try apply Inv. exact I.
    + destruct (mem m (open_sockets s)) eqn:Hmem; [discriminate|].
      assert (Hfresh : ~ In m (open_sockets s)).
      { rewrite <- mem_In, Hmem. discriminate. }
      intros H. injection H as <- <-.
      constructor; simpl; try apply Inv.
      * intros c Hc. right. apply (inv_reg_open s Inv), Hc.
      * intros c Hc. right. apply (inv_live_open s Inv), Hc.
      * repeat split; auto.
        -- intros Hin. apply Hfresh, (inv_reg_open s Inv), Hin.
        -- intros Hl. apply Hfresh, (inv_live_open s Inv), Hl.
  - simpl. intros H. injection H as <- <-.
    destruct Hm as (Ho & Hr & Hv & Hl).
    constructor; simpl; try apply Inv.
    + unfold push_back. apply NoDup_app; repeat split.
      * apply Inv.
      * constructor; [intros [] | constructor].
      * intros x Hx [<-|[]]. exact (Hr Hx).
    + unfold push_back. rewrite in_app_iff. intros [Hin|[Heq|[]]].
      * exact (inv_valid s Inv Hin).
      * exact (Hv Heq).
    + unfold push_back. intros c. rewrite in_app_iff. intros [Hin|[<-|[]]].
      * apply (inv_reg_open s Inv), Hin.
      * exact Ho.
    + intros i c pc Hi Hd. unfold push_back. rewrite in_app_iff.
      intros [Hin|[<-|[]]].
      * exact (inv_gone s Inv i c pc Hi Hd Hin).
      * apply Hl. exists i, pc. split; [exact Hi|].
        destruct Hd as [-> | ->]; discriminate.
    + split; assumption.
  - intros H. injection H as <- <-. destruct Hm as (Ho & Hl).
    constructor; simpl; try apply Inv.
    + intros c [i [pc [Hi Hp]]]. apply nth_error_snoc in Hi as [Hi|[_ Heq]].
      * apply (inv_live_open s Inv). exists i, pc. auto.
      * injection Heq as -> ->. exact Ho.
    + intros i j c pi pj Hi Hj Hpi Hpj.
      apply nth_error_snoc in Hi as [Hi|[Hi Hi']];
        apply nth_error_snoc in Hj as [Hj|[Hj Hj']].
      * apply (inv_live_once s Inv i j c pi pj); auto.
      * injection Hj' as -> ->. exfalso. apply Hl. exists i, pi. auto.
      * injection Hi' as -> ->. exfalso. apply Hl. exists j, pj. auto.
      * congruence.
    + intros i c pc Hi Hd. apply nth_error_snoc in Hi as [Hi|[_ Heq]].
      * apply (inv_gone s Inv i c pc Hi Hd).
      * injection Heq as -> ->. destruct Hd; discriminate.
    + exact I.
Qed.

Lemma invariant_step (t : thread) (s s' : system) (evs : list event) :
  invariant s -> sys_step t s = Some (evs, s') -> invariant s'.
Proof.
  destruct t; [apply invariant_main_step | apply invariant_handler_step].
Qed.

Lemma invariant_run (schedule : list thread) (s s' : system) (evs : list event) :
  invariant s -> run schedule s = Some (evs, s') -> invariant s'.
Proof.
  revert s evs. induction schedule as [|t schedule IH]; intros s evs Inv; simpl.
  - intros H. injection H as _ <-. exact Inv.
  - destruct (sys_step t s) as [[e1 s1]|] eqn:Hstep; [|discriminate].
    destruct (run schedule s1) as [[e2 s2]|] eqn:Hrun; [|discriminate].
    intros H. injection H as _ <-.
    apply (IH s1 e2); [apply (invariant_step t s s1 e1 Inv Hstep) | exact Hrun].
Qed.

(** In every system a schedule reaches, the invariant holds. *)
Lemma reachable_invariant (s : system) : reachable s -> invariant s.
Proof.
  intros (w & schedule & evs & H).
  apply (invariant_run schedule (initial w) s evs (invariant_initial w) H).
Qed.

(** *** The handler's blocks, one after the other and under a schedule *)

(** A pass of [handle_client] is its blocks run back to back. *)
Lemma handle_client_iteration_blocks (c : SOCKET) (st : state) :
  match handler_step c AtRecv st with
  | Some (e0, st0, AtRelay n buffer) =>
      match handler_step c (AtRelay n buffer) st0 with
      | Some (e1, st1, AtRecv) =>
          handle_client_iteration c st = (e0 ++ e1, st1, Continue)
      | _ => False
      end
  | Some (e0, st0, AtDeregister) =>
      match handler_step c AtDeregister st0 with
      | Some (e1, st1, AtAnnounce) =>
          match handler_step c AtAnnounce st1 with
          | Some (e2, st2, AtClose) =>
              match handler_step c AtClose st2 with
              | Some (e3, st3, Exited) =>
                  handle_client_iteration c st = (e0 ++ e1 ++ e2 ++ e3, st3, Break)
              | _ => False
              end
          | _ => False
          end
      | _ => False
      end
  | _ => False
  end.
Proof.
  unfold handle_client_iteration. simpl.
  destruct (receive_chunk c st) as [[e0 st0] [n buffer]].
  destruct (0 <? n); simpl.
  - destruct (relay_chunk c n buffer st0) as [e1 st1]. reflexivity.
  - destruct (announce_departure c _) as [e2 st2]. reflexivity.
Qed.

(** A handler that has left its loop never moves again. *)
Lemma exited_handler_is_stuck (s : system) (i : nat) (c : SOCKET) :
  nth_error (handlers s) i = Some (c, Exited) ->
  sys_step (HandlerThread i) s = None.
Proof. intros H. simpl. rewrite H. reflexivity. Qed.

(** Whatever the other threads did since the handler of [c] erased [c]:
    when it announces the departure, [c] is not registered, and the notice
    is sent exactly once on every registered socket; the handler then
    stands before its [closesocket]. *)
Lemma announce_under_any_schedule (s : system) (i : nat) (c : SOCKET) :
  reachable s ->
  nth_error (handlers s) i = Some (c, AtAnnounce) ->
  exists evs s',
    sys_step (HandlerThread i) s = Some (evs, s')
    /\ send_log evs
       = map (fun r => (r, disconnect_msg c)) (client_sockets (shared s))
    /\ ~ In c (client_sockets (shared s))
    /\ NoDup (client_sockets (shared s))
    /\ nth_error (handlers s') i = Some (c, AtClose).
Proof.
  intros R Hi. apply reachable_invariant in R.
  pose proof (broadcast_message_log (disconnect_msg c) (to_SOCKET (-1)) (shared s)) as Hlog.
  rewrite erase_remove_absent in Hlog
    by (rewrite INVALID_SOCKET_minus_one; apply (inv_valid s R)).
  simpl. rewrite Hi. simpl. unfold announce_departure.
  destruct (broadcast_message (disconnect_msg c) (to_SOCKET (-1)) (shared s))
    as [evs st] eqn:Hb.
  eexists _, _. split; [reflexivity|]. simpl in Hlog.
  split; [exact Hlog|]. split; [|split].
  - apply (inv_gone s R i c AtAnnounce Hi). left. reflexivity.
  - apply (inv_nodup s R).
  - simpl. rewrite (nth_error_set_nth _ _ _ _ _ Hi), Nat.eqb_refl. reflexivity.
Qed.

End SchedulerFacts.

(* ===================================================================== *)
(** ** The relay: [broadcast_message] *)
(* ===================================================================== *)

Section RelayClaims.
Context {T : Transport}.

(** C1.  In every system the server can reach (a handle names one open
    socket at a time), a call of [broadcast_message] with sender [sender]
    makes exactly one [send] on each registered connection other than
    [sender], makes none on [sender], and every [send] it makes carries
    [message] to a registered connection. *)
Theorem broadcast_once_to_every_other_client :
  forall (s : system) (message : string) (sender : SOCKET),
    reachable s ->
    (forall c, In c (client_sockets (shared s)) -> c <> sender ->
       sends_to c (fst (broadcast_message message sender (shared s))) = 1%nat)
    /\ sends_to sender (fst (broadcast_message message sender (shared s))) = 0%nat
    /\ (forall c m,
          In (c, m) (send_log (fst (broadcast_message message sender (shared s)))) ->
          m = message /\ In c (client_sockets (shared s)) /\ c <> sender).
Proof.
  intros s message sender R. apply reachable_invariant in R.
  split; [|split].
  - intros c Hin Hne. rewrite sends_to_broadcast.
    destruct (Z.eqb_spec c sender); [contradiction|].
    apply NoDup_count_occ'; [apply (inv_nodup s R) | exact Hin].
  - rewrite sends_to_broadcast, Z.eqb_refl. reflexivity.
  - intros c m Hin. rewrite broadcast_message_log, in_map_iff in Hin.
    destruct Hin as (x & Heq & Hx). injection Heq as <- <-.
    apply In_erase_remove in Hx. tauto.
Qed.

(** C3, as the code has it.  [broadcast_message] takes [clients_mutex] on
    entry and releases it once, after the last [send]: its trace is
    [EvLock], then the sends (and the lines logged for failed ones) on the
    entries of [client_sockets] itself, then [EvUnlock]; every [send] is
    made while the mutex is held. *)
Theorem broadcast_sends_inside_lock :
  forall (message : string) (sender : SOCKET) (st : state),
    exists body,
      fst (broadcast_message message sender st) = EvLock :: body ++ [EvUnlock]
      /\ forallb (fun e => negb (is_mutex_event e)) body = true
      /\ recipients body = erase_remove sender (client_sockets st)
      /\ sends_inside_lock false (fst (broadcast_message message sender st)) = true.
Proof.
  intros message sender st.
  exists (fst (send_each message sender (client_sockets st) (env st))).
  pose proof (send_each_no_mutex message sender (client_sockets st) (env st)) as Hm.
  repeat split.
  - apply broadcast_message_events.
  - exact Hm.
  - unfold recipients. rewrite send_each_log, map_map. simpl. apply map_id.
  - rewrite broadcast_message_events. simpl.
    rewrite (no_mutex_inside _ _ true Hm eq_refl). reflexivity.
Qed.

(** C4.  In every call of [broadcast_message], whatever the sends return:
    each send that fails is followed by its line on [std::cerr]; a send is
    still made on every entry of the registry other than the sender, in the
    registry's order, so the recipients after a failing one are served; and
    the registry after the call is the registry before it, the failing
    connection included. *)
Theorem broadcast_survives_send_failures :
  forall (message : string) (s : SOCKET) (st : state),
    let evs := fst (broadcast_message message s st) in
    let st' := snd (broadcast_message message s st) in
    failures_logged evs = true
    /\ recipients evs = erase_remove s (client_sockets st)
    /\ (forall c, In c (failed_sends evs) -> In c (client_sockets st'))
    /\ client_sockets st' = client_sockets st.
Proof.
  intros message s st evs st'. subst evs st'.
  rewrite broadcast_message_registry, broadcast_message_recipients.
  repeat split.
  - rewrite broadcast_message_events.
    change (EvLock :: ?l ++ [EvUnlock]) with ([EvLock] ++ (l ++ [EvUnlock])).
    apply failures_logged_app; [reflexivity|].
    apply failures_logged_app; [apply send_each_failures_logged | reflexivity].
  - intros c Hc.
    assert (Hin : In c (recipients (fst (broadcast_message message s st)))).
    { revert Hc. unfold recipients.
      induction (fst (broadcast_message message s st)) as [|e l IH]; simpl; [tauto|].
      destruct e; simpl; auto.
      destruct (result =? SOCKET_ERROR); simpl; intuition. }
    rewrite broadcast_message_recipients in Hin.
    apply In_erase_remove in Hin. tauto.
Qed.


End RelayClaims.

(* ===================================================================== *)
(** ** The session handler: [handle_client] *)
(* ===================================================================== *)

(** The first [n] bytes of a buffer that holds at least [n]. *)
Lemma substring_prefix (n : nat) (s : string) :
  (n <= String.length s)%nat ->
  exists rest, s = (substring 0 n s ++ rest)%string
               /\ String.length (substring 0 n s) = n.
Proof.
  revert s. induction n as [|n IH]; intros s Hn.
  - exists s. destruct s; split; reflexivity.
  - destruct s as [|ch s]; simpl in Hn; [lia|].
    destruct (IH s) as (rest & Hs & Hl); [lia|].
    exists rest. simpl. split; [f_equal; exact Hs | f_equal; exact Hl].
Qed.

Section HandlerClaims.
Context {T : Transport}.

(** C8.  When the [recv] of a pass returns [n] bytes, [0 < n <= 4096], the
    pass makes exactly one call of [broadcast_message]; its message is
    ["Client <handle>: "] followed by the first [n] bytes of the buffer, as
    they are; every send of the call carries that whole message; and the
    handler goes on to its next pass. *)
Theorem received_chunk_relayed_whole :
  forall (c : SOCKET) (st : state) (n : Z) (buffer : string) (w : world),
    recv c BUFFER_SIZE (env st) = (n, buffer, w) ->
    0 < n <= BUFFER_SIZE ->
    String.length buffer = Z.to_nat BUFFER_SIZE ->
    exists payload rest relay st',
      buffer = (payload ++ rest)%string
      /\ Z.of_nat (String.length payload) = n
      /\ handle_client_iteration c st
         = (EvRecv c n
              :: EvCout ("Broadcasting: " ++ client_id c ++ ": " ++ payload)
              :: EvLock :: relay ++ [EvUnlock],
            st', Continue)
      /\ forallb (fun e => negb (is_mutex_event e)) relay = true
      /\ send_log relay
         = map (fun r => (r, (client_id c ++ ": " ++ payload)%string))
               (erase_remove c (client_sockets st))
      /\ client_sockets st' = client_sockets st
      /\ forall fuel,
           handle_client (S fuel) c st
           = let '(evs, st2, ctl) := handle_client fuel c st' in
             ((EvRecv c n
                 :: EvCout ("Broadcasting: " ++ client_id c ++ ": " ++ payload)
                 :: EvLock :: relay ++ [EvUnlock]) ++ evs, st2, ctl).
Proof.
  intros c st n buffer w Hrecv [Hpos Hmax] Hbuf.
  destruct (substring_prefix (Z.to_nat n) buffer) as (rest & Hsplit & Hlen).
  { rewrite Hbuf. lia. }
  set (payload := substring 0 (Z.to_nat n) buffer) in *.
  set (msg := (client_id c ++ ": " ++ payload)%string).
  exists payload, rest,
    (fst (send_each msg c (client_sockets st) w)),
    (snd (broadcast_message msg c (with_env st w))).
  assert (Hiter : handle_client_iteration c st
            = (EvRecv c n :: EvCout ("Broadcasting: " ++ msg)
                 :: EvLock :: fst (send_each msg c (client_sockets st) w) ++ [EvUnlock],
               snd (broadcast_message msg c (with_env st w)), Continue)).
  { unfold handle_client_iteration, receive_chunk. rewrite Hrecv.
    destruct (Z.ltb_spec 0 n) as [_|]; [|lia].
    unfold relay_chunk. fold payload. unfold broadcast_msg. fold payload. fold msg.
    pose proof (broadcast_message_events msg c (with_env st w)) as He.
    destruct (broadcast_message msg c (with_env st w)) as [evs st1].
    simpl in He. subst evs. reflexivity. }
  repeat split.
  - exact Hsplit.
  - rewrite Hlen. lia.
  - exact Hiter.
  - apply send_each_no_mutex.
  - apply send_each_log.
  - rewrite broadcast_message_registry. reflexivity.
  - intros fuel. simpl. rewrite Hiter. reflexivity.
Qed.

(** C2.  In every system the server can reach, when the [recv] of a
    handler returns 0 or less, [handle_client] does this and nothing more,
    in this order: it erases its socket from the registry; it makes one call
    of [broadcast_message], with the departure notice, which sends the
    notice exactly once on every connection left in the registry; it closes
    its socket; it leaves its loop. *)
Theorem closed_session_deregisters_announces_closes :
  forall (s : system) (c : SOCKET) (n : Z) (buffer : string) (w : world),
    reachable s ->
    recv c BUFFER_SIZE (env (shared s)) = (n, buffer, w) ->
    n <= 0 ->
    exists notice st',
      (forall fuel,
         handle_client (S fuel) c (shared s)
         = ([EvRecv c n; EvCout (client_id c ++ " disconnected.");
             EvLock; EvErase c; EvUnlock; EvLock]
              ++ notice ++ [EvUnlock; EvClose c],
            st', Break))
      /\ client_sockets st' = erase_remove c (client_sockets (shared s))
      /\ forallb (fun e => negb (is_mutex_event e)) notice = true
      /\ receives notice = O
      /\ send_log notice
         = map (fun r => (r, disconnect_msg c)) (erase_remove c (client_sockets (shared s)))
      /\ (forall r, In r (client_sockets (shared s)) -> r <> c ->
            sends_to r notice = 1%nat)
      /\ sends_to c notice = 0%nat.
Proof.
  intros s c n buffer w R Hrecv Hn. apply reachable_invariant in R.
  set (reg := client_sockets (shared s)) in *.
  set (st1 := mkState (erase_remove c reg) w).
  assert (Hvalid : erase_remove (to_SOCKET (-1)) (erase_remove c reg) = erase_remove c reg).
  { apply erase_remove_absent. rewrite INVALID_SOCKET_minus_one, In_erase_remove.
    intros [Hin _]. exact (inv_valid s R Hin). }
  assert (Hlog : send_log (fst (send_each (disconnect_msg c) (to_SOCKET (-1))
                                  (erase_remove c reg) w))
                 = map (fun r => (r, disconnect_msg c)) (erase_remove c reg)).
  { rewrite send_each_log, Hvalid. reflexivity. }
  assert (Hrec : recipients (fst (send_each (disconnect_msg c) (to_SOCKET (-1))
                                    (erase_remove c reg) w))
                 = erase_remove c reg).
  { unfold recipients. rewrite Hlog, map_map. simpl. apply map_id. }
  exists (fst (send_each (disconnect_msg c) (to_SOCKET (-1)) (erase_remove c reg) w)),
         (with_env (snd (broadcast_message (disconnect_msg c) (to_SOCKET (-1)) st1))
            (closesocket c
               (env (snd (broadcast_message (disconnect_msg c) (to_SOCKET (-1)) st1))))).
  repeat split.
  - intros fuel. simpl. unfold handle_client_iteration, receive_chunk.
    fold reg. rewrite Hrecv.
    destruct (Z.ltb_spec 0 n) as [|_]; [lia|].
    unfold deregister, announce_departure, close_stream. simpl. fold reg. fold st1.
    pose proof (broadcast_message_events (disconnect_msg c) (to_SOCKET (-1)) st1) as He.
    destruct (broadcast_message (disconnect_msg c) (to_SOCKET (-1)) st1) as [evs st2].
    simpl in He. subst evs. simpl. rewrite <- app_assoc. reflexivity.
  - simpl. apply broadcast_message_registry.
  - apply send_each_no_mutex.
  - generalize (erase_remove c reg) at 1. intros l. generalize w.
    induction l as [|r l IH]; intros w0; simpl; [reflexivity|].
    destruct (negb (r =? to_SOCKET (-1))); [|apply IH].
    destruct (send r (disconnect_msg c) w0) as [res w1].
    specialize (IH w1).
    destruct (send_each (disconnect_msg c) (to_SOCKET (-1)) l w1) as [evs w2].
    simpl in *. rewrite receives_app.
    destruct (res =? SOCKET_ERROR); simpl; exact IH.
  - exact Hlog.
  - intros r Hin Hne. unfold sends_to. rewrite Hrec.
    apply NoDup_count_occ'.
    + apply erase_remove_NoDup, (inv_nodup s R).
    + apply In_erase_remove. auto.
  - unfold sends_to. rewrite Hrec. apply count_occ_not_In, erase_remove_gone.
Qed.

(** C6.  Erasing a socket that is not in the registry leaves the state as
    it is, and the step has no way to fail; erasing twice gives the state
    that erasing once gives; the erase sends nothing, so a handler that
    erases twice before its notice sends what it sends after one erase. *)
Theorem deregister_idempotent :
  forall (c : SOCKET) (st : state),
    (~ In c (client_sockets st) -> snd (deregister c st) = st)
    /\ snd (deregister c (snd (deregister c st))) = snd (deregister c st)
    /\ send_log (fst (deregister c st)) = []
    /\ send_log (fst (deregister c st)
                   ++ fst (deregister c (snd (deregister c st)))
                   ++ fst (announce_departure c (snd (deregister c (snd (deregister c st))))))
       = send_log (fst (deregister c st)
                     ++ fst (announce_departure c (snd (deregister c st)))).
Proof.
  intros c st.
  assert (Htwice : snd (deregister c (snd (deregister c st))) = snd (deregister c st)).
  { unfold deregister. simpl. f_equal.
    apply erase_remove_absent, erase_remove_gone. }
  repeat split.
  - intros Habsent. destruct st as [reg w]. unfold deregister. simpl in *.
    f_equal. apply erase_remove_absent, Habsent.
  - exact Htwice.
  - rewrite Htwice, !send_log_app. reflexivity.
Qed.

End HandlerClaims.

(* ===================================================================== *)
(** ** The accept loop of [main] *)
(* ===================================================================== *)

Section AcceptClaims.
Context {T : Transport}.

Lemma main_iteration_continues (st : state) : snd (main_iteration st) = Continue.
Proof.
  unfold main_iteration, accept_client.
  destruct (accept (env st)) as [c w].
  destruct (c =? INVALID_SOCKET); reflexivity.
Qed.

Lemma main_iteration_accepts_once (st : state) :
  accepts (fst (fst (main_iteration st))) = 1%nat.
Proof.
  unfold main_iteration, accept_client.
  destruct (accept (env st)) as [c w].
  destruct (c =? INVALID_SOCKET); reflexivity.
Qed.

Lemma main_loop_never_leaves (fuel : nat) (st : state) :
  snd (main_loop fuel st) = Continue
  /\ accepts (fst (fst (main_loop fuel st))) = fuel.
Proof.
  revert st. induction fuel as [|fuel IH]; intros st; simpl; [split; reflexivity|].
  pose proof (main_iteration_continues st) as Hc.
  pose proof (main_iteration_accepts_once st) as Ha.
  destruct (main_iteration st) as [[evs st1] ctl]. simpl in Hc, Ha. subst ctl.
  destruct (IH st1) as [IHc IHa].
  destruct (main_loop fuel st1) as [[evs' st2] ctl']. simpl in *.
  split; [exact IHc | rewrite accepts_app; lia].
Qed.

(** C7, as the code has it.  Registering a socket appends it to
    [client_sockets] and reports nothing, whether or not the socket is
    already there: a socket already there is then there twice.  When the
    registry holds each socket at most once and the new socket is not in
    it, the registry after the step holds each socket at most once. *)
Theorem register_client_appends :
  forall (c : SOCKET) (st : state),
    register_client c st
    = ([EvLock; EvPush c; EvUnlock], mkState (client_sockets st ++ [c]) (env st))
    /\ (In c (client_sockets st) ->
        (2 <= count_occ Z.eq_dec (client_sockets (snd (register_client c st))) c)%nat)
    /\ (NoDup (client_sockets st) -> ~ In c (client_sockets st) ->
        NoDup (client_sockets (snd (register_client c st)))).
Proof.
  intros c st. split; [reflexivity|]. split; simpl; unfold push_back.
  - intros Hin. rewrite count_occ_app.
    assert (Hlast : In c [c]) by (left; reflexivity).
    apply (count_occ_In Z.eq_dec) in Hin, Hlast. unfold SOCKET in *. lia.
  - intros Hnd Hnew. apply NoDup_app; repeat split.
    + exact Hnd.
    + constructor; [intros [] | constructor].
    + intros x Hx [<-|[]]. exact (Hnew Hx).
Qed.

(** C9, as the code has it.  When [accept] returns [INVALID_SOCKET], with
    whatever error code, the pass writes the error on [std::cerr], registers
    nothing, starts no handler, and the loop goes on to its next [accept];
    and no pass of the loop ever leaves it: after any number of passes the
    loop is still running and has called [accept] once per pass. *)
Theorem accept_error_logged_loop_continues :
  forall (st : state) (w : world),
    accept (env st) = (INVALID_SOCKET, w) ->
    main_iteration st
    = ([EvAccept INVALID_SOCKET;
        EvCerr ("Accept failed with error: " ++ to_string (WSAGetLastError w))],
       with_env st w, Continue)
    /\ client_sockets (with_env st w) = client_sockets st
    /\ (forall fuel,
          main_loop (S fuel) st
          = let '(evs, st', ctl) := main_loop fuel (with_env st w) in
            ([EvAccept INVALID_SOCKET;
              EvCerr ("Accept failed with error: " ++ to_string (WSAGetLastError w))]
               ++ evs, st', ctl))
    /\ (forall fuel st0,
          snd (main_loop fuel st0) = Continue
          /\ accepts (fst (fst (main_loop fuel st0))) = fuel).
Proof.
  intros st w Hacc.
  assert (Hiter : main_iteration st
            = ([EvAccept INVALID_SOCKET;
                EvCerr ("Accept failed with error: " ++ to_string (WSAGetLastError w))],
               with_env st w, Continue)).
  { unfold main_iteration, accept_client. rewrite Hacc, Z.eqb_refl. reflexivity. }
  repeat split.
  - exact Hiter.
  - simpl. rewrite Hiter. reflexivity.
  - apply main_loop_never_leaves.
  - apply main_loop_never_leaves.
Qed.

End AcceptClaims.

(* ===================================================================== *)
(** ** Removal and later broadcasts, over all schedules *)
(* ===================================================================== *)

Lemma sends_registered_app (a b : list event) (reg : list SOCKET) :
  sends_registered (a ++ b) reg
  = sends_registered a reg && sends_registered b (replay a reg).
Proof.
  revert reg. induction a as [|e a IH]; intros reg; simpl; [reflexivity|].
  destruct e; simpl; rewrite ?IH; try reflexivity.
  rewrite andb_assoc. reflexivity.
Qed.

Lemma replay_app (a b : list event) (reg : list SOCKET) :
  replay (a ++ b) reg = replay b (replay a reg).
Proof.
  revert reg. induction a as [|e a IH]; intros reg; simpl; [reflexivity|].
  destruct e; simpl; rewrite ?IH; reflexivity.
Qed.

(** A socket that is not registered receives nothing until it is pushed. *)
Lemma unregistered_not_sent_to (c : SOCKET) (mid rest : list event) (reg : list SOCKET) :
  ~ In c reg ->
  sends_registered (mid ++ rest) reg = true ->
  ~ In (EvPush c) mid ->
  sends_to c mid = 0%nat.
Proof.
  revert reg. induction mid as [|e mid IH]; intros reg Hreg Hok Hpush; [reflexivity|].
  assert (Hpush' : ~ In (EvPush c) mid) by (intros H; apply Hpush; right; exact H).
  destruct e; simpl in Hok; try (apply (IH reg); assumption).
  - apply (IH (reg ++ [socket])); auto.
    rewrite in_app_iff. intros [H|[H|[]]]; [exact (Hreg H)|].
    apply Hpush. left. congruence.
  - apply (IH (filter (fun y => negb (y =? socket)) reg)); auto.
    intros H. apply filter_In in H as [H _]. exact (Hreg H).
  - apply andb_prop in Hok as [Hmem Hok].
    unfold sends_to, recipients. simpl.
    destruct (Z.eq_dec socket c) as [->|Hne].
    + exfalso. apply Hreg, mem_In, Hmem.
    + apply (IH reg); assumption.
Qed.

Section TemporalClaims.
Context {T : Transport}.

Lemma send_each_registered (message : string) (s : SOCKET) (l reg : list SOCKET)
    (w : world) (tail : list event) :
  (forall c, In c l -> In c reg) ->
  sends_registered (fst (send_each message s l w) ++ tail) reg
  = sends_registered tail reg
  /\ replay (fst (send_each message s l w) ++ tail) reg = replay tail reg.
Proof.
  revert w. induction l as [|c l IH]; intros w Hsub; simpl; [split; reflexivity|].
  assert (Hsub' : forall x, In x l -> In x reg) by (intros x Hx; apply Hsub; right; exact Hx).
  destruct (negb (c =? s)); [|apply IH; exact Hsub'].
  destruct (send c message w) as [r w1].
  specialize (IH w1 Hsub').
  destruct (send_each message s l w1) as [evs w2]. simpl in *.
  assert (Hmem : mem c reg = true) by (apply mem_In, Hsub; left; reflexivity).
  rewrite Hmem. simpl.
  destruct (r =? SOCKET_ERROR); simpl; exact IH.
Qed.

Lemma broadcast_message_registered (message : string) (s : SOCKET) (st : state) :
  sends_registered (fst (broadcast_message message s st)) (client_sockets st) = true
  /\ replay (fst (broadcast_message message s st)) (client_sockets st)
     = client_sockets st.
Proof.
  rewrite broadcast_message_events. simpl.
  apply (send_each_registered message s (client_sockets st) (client_sockets st)
           (env st) [EvUnlock]).
  auto.
Qed.

(** The trace of a step agrees with what the step does to the registry,
    and sends only to registered sockets. *)
Lemma sys_step_registered (t : thread) (s s' : system) (evs : list event) :
  sys_step t s = Some (evs, s') ->
  sends_registered evs (client_sockets (shared s)) = true
  /\ replay evs (client_sockets (shared s)) = client_sockets (shared s').
Proof.
  destruct t as [|i]; simpl.
  - unfold main_step. destruct (main_at s) as [|m|m].
    + unfold accept_client. destruct (accept (env (shared s))) as [m w].
      destruct (m =? INVALID_SOCKET).
      * intros H. injection H as <- <-. split; reflexivity.
      * destruct (mem m (open_sockets s)); [discriminate|].
        intros H. injection H as <- <-. split; reflexivity.
    + simpl. intros H. injection H as <- <-. split; reflexivity.
    + intros H. injection H as <- <-. split; reflexivity.
  - destruct (nth_error (handlers s) i) as [[c pc]|]; [|discriminate].
    destruct (handler_step c pc (shared s)) as [[[evs0 st] pc']|] eqn:Hstep;
      [|discriminate].
    intros H. injection H as <- <-. simpl.
    destruct pc; simpl in Hstep.
    + unfold receive_chunk in Hstep.
      destruct (recv c BUFFER_SIZE (env (shared s))) as [[n buf] w].
      injection Hstep as <- <- _. split; reflexivity.
    + unfold relay_chunk in Hstep.
      pose proof (broadcast_message_registered
                    (broadcast_msg c bytes_received buffer) c (shared s)) as Hb.
      pose proof (broadcast_message_registry
                    (broadcast_msg c bytes_received buffer) c (shared s)) as Hr.
      destruct (broadcast_message (broadcast_msg c bytes_received buffer) c (shared s)).
      injection Hstep as <- <- _. simpl in *. rewrite Hr. exact Hb.
    + injection Hstep as <- <- _. split; reflexivity.
    + unfold announce_departure in Hstep.
      pose proof (broadcast_message_registered
                    (disconnect_msg c) (to_SOCKET (-1)) (shared s)) as Hb.
      pose proof (broadcast_message_registry
                    (disconnect_msg c) (to_SOCKET (-1)) (shared s)) as Hr.
      destruct (broadcast_message (disconnect_msg c) (to_SOCKET (-1)) (shared s)).
      injection Hstep as <- <- _. simpl in *. rewrite Hr. exact Hb.
    + injection Hstep as <- <- _. split; reflexivity.
    + discriminate.
Qed.

Lemma run_registered (schedule : list thread) (s s' : system) (evs : list event) :
  run schedule s = Some (evs, s') ->
  sends_registered evs (client_sockets (shared s)) = true
  /\ replay evs (client_sockets (shared s)) = client_sockets (shared s').
Proof.
  revert s evs. induction schedule as [|t schedule IH]; intros s evs; simpl.
  - intros H. injection H as <- <-. split; reflexivity.
  - destruct (sys_step t s) as [[e1 s1]|] eqn:Hstep; [|discriminate].
    destruct (run schedule s1) as [[e2 s2]|] eqn:Hrun; [|discriminate].
    intros H. injection H as <- <-.
    destruct (sys_step_registered t s s1 e1 Hstep) as [H1 H1'].
    destruct (IH s1 e2 Hrun) as [H2 H2'].
    rewrite sends_registered_app, replay_app, H1, H1', H2. split; [reflexivity | exact H2'].
Qed.

(** C5.  In every run of the server, under every schedule and from every
    state: once a handler has erased [c] from the registry, no [send] is
    made on [c] for as long as [c] is not registered again, that is, until
    [accept] gives the handle [c] to a new connection and [main] pushes
    it. *)
Theorem no_send_after_erase :
  forall (schedule : list thread) (s s' : system) (evs before mid rest : list event)
         (c : SOCKET),
    run schedule s = Some (evs, s') ->
    evs = before ++ EvErase c :: mid ++ rest ->
    ~ In (EvPush c) mid ->
    sends_to c mid = 0%nat.
Proof.
  intros schedule s s' evs before mid rest c Hrun Hevs Hpush.
  destruct (run_registered schedule s s' evs Hrun) as [Hok _].
  rewrite Hevs, sends_registered_app in Hok.
  apply andb_prop in Hok as [_ Hok]. simpl in Hok.
  apply (unregistered_not_sent_to c mid rest
           (filter (fun y => negb (y =? c)) (replay before (client_sockets (shared s)))));
    [|exact Hok | exact Hpush].
  intros H. apply filter_In in H as [_ H]. rewrite Z.eqb_refl in H. discriminate.
Qed.

End TemporalClaims.

(* ===================================================================== *)
(** ** The client's send loop *)
(* ===================================================================== *)

Lemma read_line_split (cin line rest : string) :
  read_line cin = (line, rest) ->
  no_newline line = true
  /\ (cin = (line ++ String newline rest)%string \/ (cin = line /\ rest = EmptyString)).
Proof.
  revert line rest. induction cin as [|ch cin IH]; intros line rest; simpl.
  - intros H. injection H as <- <-. split; [reflexivity | right; split; reflexivity].
  - destruct (Ascii.eqb_spec ch newline) as [->|Hne].
    + intros H. injection H as <- <-. split; [reflexivity | left; reflexivity].
    + destruct (read_line cin) as [l r]. intros H. injection H as <- <-.
      destruct (IH l r eq_refl) as [Hnl Hsplit]. split.
      * simpl. rewrite Hnl. destruct (Ascii.eqb_spec ch newline); [contradiction | reflexivity].
      * destruct Hsplit as [->|[-> ->]]; [left | right; split]; reflexivity.
Qed.

Lemma append_assoc (a b c : string) : ((a ++ b) ++ c = a ++ (b ++ c))%string.
Proof. induction a as [|ch a IH]; simpl; [reflexivity | rewrite IH; reflexivity]. Qed.


(** What [getline] extracts: a line without newline, cut from the front of
    the input at its first newline, or the whole input when it has none. *)
Lemma getline_split (cin line rest : string) :
  getline cin = Some (line, rest) ->
  no_newline line = true
  /\ exists tail, (cin ++ String newline EmptyString)%string
                  = (line ++ String newline tail)%string
                  /\ (tail = (rest ++ String newline EmptyString)%string
                      \/ (tail = EmptyString /\ rest = EmptyString)).
Proof.
  destruct cin as [|ch cin]; [discriminate|].
  unfold getline. intros H. injection H as H.
  apply (read_line_split (String ch cin) line rest) in H as [Hnl [Hcut|[Hall Hrest]]];
    split; try exact Hnl.
  - exists (rest ++ String newline EmptyString)%string. split; [|left; reflexivity].
    rewrite Hcut at 1. rewrite append_assoc. reflexivity.
  - exists EmptyString. split; [|right; split; [reflexivity | exact Hrest]].
    rewrite Hall at 1. reflexivity.
Qed.

(** The lines read so far, joined, are the front of the input. *)
Lemma extend_lines (cin line rest : string) (ls : list string) :
  getline cin = Some (line, rest) ->
  (rest = EmptyString -> ls = []) ->
  (rest = EmptyString \/
   exists tail, (rest ++ String newline EmptyString)%string
                = (join_lines ls ++ tail)%string) ->
  exists tail, (cin ++ String newline EmptyString)%string
               = (join_lines (line :: ls) ++ tail)%string.
Proof.
  intros Hg Heof IH.
  apply getline_split in Hg as [_ (tail0 & Hcin & Htail)].
  simpl. setoid_rewrite append_assoc. simpl. rewrite Hcin.
  destruct Htail as [->|[-> Hrest]].
  - destruct IH as [Hrest|[tail IH]].
    + rewrite (Heof Hrest), Hrest. simpl. eexists. reflexivity.
    + exists tail. rewrite IH. reflexivity.
  - rewrite (Heof Hrest). exists EmptyString. reflexivity.
Qed.

Section ClientClaims.
Context {T : Transport}.

Lemma send_loop_eof (sock : SOCKET) (w : world) :
  send_loop sock EmptyString w = ([], w).
Proof. simp send_loop. reflexivity. Qed.

Ltac rewrite_empty :=
  match goal with He : empty _ = _ |- _ => rewrite He end.

Lemma send_loop_sends_lines (sock : SOCKET) (cin : string) (w : world) :
  send_log (fst (send_loop sock cin w))
  = map (fun line => (sock, line))
        (filter (fun line => negb (empty line)) (lines_read (fst (send_loop sock cin w))))
  /\ forallb no_newline (lines_read (fst (send_loop sock cin w))) = true
  /\ (cin = EmptyString \/
      exists tail, (cin ++ String newline EmptyString)%string
                   = (join_lines (lines_read (fst (send_loop sock cin w))) ++ tail)%string).
Proof.
  funelim (send_loop sock cin w).
  all: try (rewrite <- Heqcall; clear Heqcall).
  - split; [reflexivity|]. split; [reflexivity|]. left.
    destruct cin; [reflexivity | discriminate].
  - assert (Heof : rest = EmptyString -> lines_read (fst (send_loop sock rest w)) = [])
      by (intros ->; rewrite send_loop_eof; reflexivity).
    destruct H as (Hsent & Hnl & Hcut).
    pose proof (extend_lines cin line rest _ Hg Heof Hcut) as Hext.
    pose proof (getline_split cin line rest Hg) as [Hline _].
    destruct (send_loop sock rest w) as [evs w1]. simpl in *.
    rewrite_empty. simpl. rewrite Hline, Hnl.
    split; [exact Hsent|]. split; [reflexivity|]. right. exact Hext.
  - pose proof (getline_split cin line rest Hg) as [Hline (tail0 & Hcin & _)].
    simpl. rewrite_empty. simpl. rewrite Hline.
    split; [reflexivity|]. split; [reflexivity|]. right.
    exists tail0. rewrite Hcin, append_assoc. reflexivity.
  - assert (Heof : rest = EmptyString -> lines_read (fst (send_loop sock rest w1)) = [])
      by (intros ->; rewrite send_loop_eof; reflexivity).
    destruct H as (Hsent & Hnl & Hcut).
    pose proof (extend_lines cin line rest _ Hg Heof Hcut) as Hext.
    pose proof (getline_split cin line rest Hg) as [Hline _].
    destruct (send_loop sock rest w1) as [evs w2]. simpl in *.
    rewrite_empty. simpl. rewrite Hline, Hnl, Hsent.
    split; [reflexivity|]. split; [reflexivity|]. right. exact Hext.
Qed.

(** C10.  In every run of [send_messages]: the [send] calls it makes are,
    in order, the non-empty lines it read, each sent whole and as read; an
    empty line is followed by no [send]; no line read holds a newline; and
    the lines read, each with its newline put back, are the front of the
    input (the last line of an input that does not end in a newline is
    read without one). *)
Theorem nonempty_lines_sent_as_read :
  forall (sock : SOCKET) (cin : string) (w : world),
    send_log (fst (send_messages sock cin w))
    = map (fun line => (sock, line))
          (filter (fun line => negb (empty line))
                  (lines_read (fst (send_messages sock cin w))))
    /\ forallb no_newline (lines_read (fst (send_messages sock cin w))) = true
    /\ exists tail, (cin ++ String newline EmptyString)%string
                    = (join_lines (lines_read (fst (send_messages sock cin w))) ++ tail)%string.
Proof.
  intros sock cin w. unfold send_messages.
  pose proof (send_loop_sends_lines sock cin w) as (Hsent & Hnl & Hcut).
  assert (Heof : cin = EmptyString -> lines_read (fst (send_loop sock cin w)) = [])
    by (intros ->; rewrite send_loop_eof; reflexivity).
  destruct (send_loop sock cin w) as [evs w1]. simpl in *.
  split; [exact Hsent|]. split; [exact Hnl|].
  destruct Hcut as [Hempty|Hcut]; [|exact Hcut].
  rewrite (Heof Hempty), Hempty. eexists. reflexivity.
Qed.

End ClientClaims.

(* ===================================================================== *)
(** ** The claims on the scripted transport *)
(* ===================================================================== *)

Lemma lobby_reachable : reachable lobby.
Proof.
  exists (three_clients : @world Scripted), accept_three.
  eexists. vm_compute. reflexivity.
Qed.

(** In the lobby of 5, 6 and 7, a message of 5 is sent once to 6. *)
Lemma broadcast_once_in_lobby :
  reachable lobby
  /\ sends_to 6 (fst (broadcast_message "hello" 5 (shared lobby))) = 1%nat.
Proof.
  split; [exact lobby_reachable|].
  apply (broadcast_once_to_every_other_client lobby "hello" 5 lobby_reachable).
  - simpl. tauto.
  - discriminate.
Defined.

(** The peer of 6 closes while 5, 6 and 7 are in the lobby. *)
Lemma session_of_6_closes :
  reachable lobby
  /\ (0 <= 0)
  /\ exists notice st',
       handle_client 1 6 (shared lobby)
       = ([EvRecv 6 0; EvCout (client_id 6 ++ " disconnected.");
           EvLock; EvErase 6; EvUnlock; EvLock] ++ notice ++ [EvUnlock; EvClose 6],
          st', Break)
       /\ client_sockets st' = [5; 7]
       /\ sends_to 5 notice = 1%nat.
Proof.
  split; [exact lobby_reachable|]. split; [lia|].
  destruct (closed_session_deregisters_announces_closes lobby 6 0
              (fill (Z.to_nat BUFFER_SIZE) EmptyString) (env (shared lobby))
              lobby_reachable eq_refl ltac:(lia))
    as (notice & st' & Hrun & Hreg & _ & _ & _ & Honce & _).
  exists notice, st'. split; [apply Hrun|]. split; [exact Hreg|].
  apply Honce; [simpl; tauto | discriminate].
Defined.

(** C3, as the spec states it, fails: in the broadcast of ["hi"] from 4 to
    the registry [4; 5] the [send] on 5 is made between the lock and the
    unlock. *)
Lemma broadcast_sends_while_locked :
  fst (broadcast_message "hi" 4 (scripted_state [4; 5] quiet))
  = [EvLock; EvSend 5 "hi" 2; EvUnlock]
  /\ sends_outside_lock false (fst (broadcast_message "hi" 4 (scripted_state [4; 5] quiet)))
     = false.
Proof. split; reflexivity. Qed.

(** Handle 6 is erased, closed, accepted again: until it is pushed again
    nothing is sent on it. *)
Lemma nothing_sent_on_6_until_pushed_again :
  run reuse_schedule (initial handle_reused)
  = Some (before_erase ++ EvErase 6 :: until_push ++ from_push,
          mkSystem (scripted_state [5; 6] quiet) AtAccept
                   [(5, AtRecv); (6, Exited); (6, AtRecv)] [6; 5])
  /\ ~ In (EvPush 6) until_push
  /\ sends_to 6 until_push = 0%nat.
Proof.
  assert (Hrun : run reuse_schedule (initial handle_reused)
                 = Some (before_erase ++ EvErase 6 :: until_push ++ from_push,
                         mkSystem (scripted_state [5; 6] quiet) AtAccept
                                  [(5, AtRecv); (6, Exited); (6, AtRecv)] [6; 5]))
    by (vm_compute; reflexivity).
  assert (Hpush : ~ In (EvPush 6) until_push)
    by (unfold until_push; simpl; intuition discriminate).
  split; [exact Hrun|]. split; [exact Hpush|].
  exact (no_send_after_erase reuse_schedule (initial handle_reused) _ _
           before_erase until_push from_push 6 Hrun eq_refl Hpush).
Defined.

(** Erasing 9 from a registry that does not hold it. *)
Lemma deregister_absent_socket :
  ~ In 9 [5; 6]
  /\ snd (deregister 9 (scripted_state [5; 6] quiet)) = scripted_state [5; 6] quiet.
Proof.
  assert (H : ~ In 9 (client_sockets (scripted_state [5; 6] quiet)))
    by (simpl; intuition discriminate).
  split; [exact H|].
  exact (proj1 (deregister_idempotent 9 (scripted_state [5; 6] quiet)) H).
Defined.

(** C7, as the spec states it, fails: registering 5 when 5 is registered
    reports nothing and changes the registry, which then holds 5 twice. *)
Lemma duplicate_registered_twice :
  In 5 (client_sockets (scripted_state [5] quiet))
  /\ register_client 5 (scripted_state [5] quiet)
     = ([EvLock; EvPush 5; EvUnlock], scripted_state [5; 5] quiet)
  /\ client_sockets (snd (register_client 5 (scripted_state [5] quiet))) <> [5]
  /\ ~ NoDup (client_sockets (snd (register_client 5 (scripted_state [5] quiet)))).
Proof.
  split; [left; reflexivity|]. split; [reflexivity|]. split; [discriminate|].
  simpl. intros H. inversion H as [|x l Hnotin _]. apply Hnotin. left. reflexivity.
Qed.

(** Registering 7 with 5 and 6. *)
Lemma register_new_socket :
  NoDup [5; 6] /\ ~ In 7 [5; 6]
  /\ NoDup (client_sockets (snd (register_client 7 (scripted_state [5; 6] quiet)))).
Proof.
  assert (Hnd : NoDup (client_sockets (scripted_state [5; 6] quiet))).
  { simpl. repeat constructor; simpl; intuition discriminate. }
  assert (Hnew : ~ In 7 (client_sockets (scripted_state [5; 6] quiet)))
    by (simpl; intuition discriminate).
  split; [exact Hnd|]. split; [exact Hnew|].
  exact (proj2 (proj2 (register_client_appends 7 (scripted_state [5; 6] quiet))) Hnd Hnew).
Defined.

(** Socket 5 receives two lines in one chunk: they leave as one message. *)
Lemma two_lines_relayed_as_one :
  recv 5 BUFFER_SIZE chatty = (8, fill (Z.to_nat BUFFER_SIZE) two_lines, quiet)
  /\ exists payload rest relay st',
       fill (Z.to_nat BUFFER_SIZE) two_lines = (payload ++ rest)%string
       /\ Z.of_nat (String.length payload) = 8
       /\ handle_client_iteration 5 (scripted_state [5; 6; 7] chatty)
          = (EvRecv 5 8
               :: EvCout ("Broadcasting: " ++ client_id 5 ++ ": " ++ payload)
               :: EvLock :: relay ++ [EvUnlock],
             st', Continue)
       /\ send_log relay
          = [(6, (client_id 5 ++ ": " ++ payload)%string);
             (7, (client_id 5 ++ ": " ++ payload)%string)].
Proof.
  assert (Hrecv : recv 5 BUFFER_SIZE (env (scripted_state [5; 6; 7] chatty))
                  = (8, fill (Z.to_nat BUFFER_SIZE) two_lines, quiet))
    by (vm_compute; reflexivity).
  split; [exact Hrecv|].
  destruct (received_chunk_relayed_whole 5 (scripted_state [5; 6; 7] chatty) 8
              (fill (Z.to_nat BUFFER_SIZE) two_lines) quiet Hrecv
              ltac:(unfold BUFFER_SIZE; lia) ltac:(vm_compute; reflexivity))
    as (payload & rest & relay & st' & Hbuf & Hlen & Hiter & _ & Hlog & _).
  exists payload, rest, relay, st'. repeat split; assumption.
Defined.

(** C9, as the spec states it, fails: when the listening socket is gone
    every [accept] fails with [WSAENOTSOCK], and the loop logs and goes on,
    pass after pass. *)
Lemma dead_listener_does_not_end_the_loop :
  accept quiet = (INVALID_SOCKET, mkScript [] [] [] WSAENOTSOCK)
  /\ main_loop 3 (scripted_state [] quiet)
     = ([EvAccept INVALID_SOCKET; EvCerr "Accept failed with error: 10038";
         EvAccept INVALID_SOCKET; EvCerr "Accept failed with error: 10038";
         EvAccept INVALID_SOCKET; EvCerr "Accept failed with error: 10038"],
        scripted_state [] (mkScript [] [] [] WSAENOTSOCK), Continue).
Proof. split; vm_compute; reflexivity. Qed.

(** A failed [accept] with 5 and 6 registered. *)
Lemma failed_accept_is_skipped :
  accept quiet = (INVALID_SOCKET, mkScript [] [] [] WSAENOTSOCK)
  /\ main_iteration (scripted_state [5; 6] quiet)
     = ([EvAccept INVALID_SOCKET; EvCerr "Accept failed with error: 10038"],
        scripted_state [5; 6] (mkScript [] [] [] WSAENOTSOCK), Continue).
Proof.
  assert (Hacc : accept (env (scripted_state [5; 6] quiet))
                 = (INVALID_SOCKET, mkScript [] [] [] WSAENOTSOCK))
    by reflexivity.
  split; [exact Hacc|].
  exact (proj1 (accept_error_logged_loop_continues (scripted_state [5; 6] quiet) _ Hacc)).
Defined.

(* ===================================================================== *)
(** ** Further properties of the server *)
(* ===================================================================== *)




Lemma erased_app (a b : list event) : erased (a ++ b) = erased a ++ erased b.
Proof.
  induction a as [|e a IH]; simpl; [reflexivity|].
  destruct e; simpl; rewrite ?IH; reflexivity.
Qed.

Lemma closed_app (a b : list event) : closed (a ++ b) = closed a ++ closed b.
Proof.
  induction a as [|e a IH]; simpl; [reflexivity|].
  destruct e; simpl; rewrite ?IH; reflexivity.
Qed.

Lemma received_app (a b : list event) : received (a ++ b) = received a ++ received b.
Proof.
  induction a as [|e a IH]; simpl; [reflexivity|].
  destruct e; simpl; rewrite ?IH; reflexivity.
Qed.

Section AcceptLoop.
Context {T : Transport}.


End AcceptLoop.

(** The events [broadcast_message] can make. *)
Definition relay_event (e : event) : bool :=
  match e with
  | EvLock | EvUnlock | EvSend _ _ _ | EvCerr _ => true
  | _ => false
  end.

Lemma relay_events_quiet (evs : list event) :
  forallb relay_event evs = true ->
  erased evs = [] /\ closed evs = [] /\ received evs = [] /\ pushed evs = [].
Proof.
  induction evs as [|e evs IH]; simpl; [auto|].
  intros H. apply andb_prop in H as [He H].
  destruct e; simpl in *; try discriminate; auto.
Qed.

Section HandlerLoop.
Context {T : Transport}.

Lemma send_each_relay_events (message : string) (s : SOCKET) (l : list SOCKET) (w : world) :
  forallb relay_event (fst (send_each message s l w)) = true.
Proof.
  revert w. induction l as [|c l IH]; intros w; simpl; [reflexivity|].
  destruct (negb (c =? s)); [|apply IH].
  destruct (send c message w) as [r w1].
  specialize (IH w1). destruct (send_each message s l w1) as [evs w2].
  simpl in *. destruct (r =? SOCKET_ERROR); simpl; exact IH.
Qed.

Lemma broadcast_message_relay_events (message : string) (s : SOCKET) (st : state) :
  forallb relay_event (fst (broadcast_message message s st)) = true.
Proof.
  rewrite broadcast_message_events. simpl. rewrite forallb_app.
  rewrite send_each_relay_events. reflexivity.
Qed.

(** What one pass of [handle_client] leaves in the trace and the registry. *)
Lemma handle_client_iteration_outcome (c : SOCKET) (st : state) :
  exists n,
    received (fst (fst (handle_client_iteration c st))) = [n]
    /\ match snd (handle_client_iteration c st) with
       | Continue =>
           0 < n
           /\ erased (fst (fst (handle_client_iteration c st))) = []
           /\ closed (fst (fst (handle_client_iteration c st))) = []
           /\ client_sockets (snd (fst (handle_client_iteration c st)))
              = client_sockets st
       | Break =>
           n <= 0
           /\ erased (fst (fst (handle_client_iteration c st))) = [c]
           /\ closed (fst (fst (handle_client_iteration c st))) = [c]
           /\ client_sockets (snd (fst (handle_client_iteration c st)))
              = erase_remove c (client_sockets st)
           /\ exists pre, fst (fst (handle_client_iteration c st)) = pre ++ [EvClose c]
       end.
Proof.
  unfold handle_client_iteration, receive_chunk.
  destruct (recv c BUFFER_SIZE (env st)) as [[n buffer] w]. exists n.
  destruct (Z.ltb_spec 0 n) as [Hn|Hn].
  - unfold relay_chunk.
    pose proof (broadcast_message_relay_events
                  (broadcast_msg c n buffer) c (with_env st w)) as Hq.
    pose proof (broadcast_message_registry
                  (broadcast_msg c n buffer) c (with_env st w)) as Hr.
    destruct (broadcast_message (broadcast_msg c n buffer) c (with_env st w))
      as [evs st1].
    simpl in *. apply relay_events_quiet in Hq as (He & Hc & Hrecv & _).
    rewrite He, Hc, Hrecv. auto.
  - unfold deregister, announce_departure, close_stream.
    set (st1 := mkState (erase_remove c (client_sockets (with_env st w)))
                        (env (with_env st w))).
    pose proof (broadcast_message_relay_events
                  (disconnect_msg c) (to_SOCKET (-1)) st1) as Hq.
    pose proof (broadcast_message_registry
                  (disconnect_msg c) (to_SOCKET (-1)) st1) as Hr.
    destruct (broadcast_message (disconnect_msg c) (to_SOCKET (-1)) st1)
      as [evs st2].
    simpl in *. apply relay_events_quiet in Hq as (He & Hc & Hrecv & _).
    rewrite erased_app, closed_app, received_app, He, Hc, Hrecv. simpl.
    repeat split; auto; try lia.
    exists (EvRecv c n :: EvCout (client_id c ++ " disconnected.")
              :: EvLock :: EvErase c :: EvUnlock :: evs).
    reflexivity.
Qed.

(** X2.  A run of [handle_client], however long.  While it is still in
    its loop every [recv] so far returned more than 0, one per pass, and it
    has erased nothing, closed nothing, and left the registry as it was.
    When it has left its loop, the last [recv], and only the last, returned
    0 or less; it erased its own socket and nothing else, once; it closed
    its own socket and nothing else, once, as its very last action. *)
Theorem handle_client_outcome :
  forall (fuel : nat) (c : SOCKET) (st : state),
    match snd (handle_client fuel c st) with
    | Continue =>
        List.length (received (fst (fst (handle_client fuel c st)))) = fuel
        /\ Forall (fun n => 0 < n) (received (fst (fst (handle_client fuel c st))))
        /\ erased (fst (fst (handle_client fuel c st))) = []
        /\ closed (fst (fst (handle_client fuel c st))) = []
        /\ client_sockets (snd (fst (handle_client fuel c st))) = client_sockets st
    | Break =>
        (exists ok n,
            received (fst (fst (handle_client fuel c st))) = ok ++ [n]
            /\ Forall (fun n => 0 < n) ok /\ n <= 0
            /\ (List.length ok < fuel)%nat)
        /\ erased (fst (fst (handle_client fuel c st))) = [c]
        /\ closed (fst (fst (handle_client fuel c st))) = [c]
        /\ client_sockets (snd (fst (handle_client fuel c st)))
           = erase_remove c (client_sockets st)
        /\ exists pre, fst (fst (handle_client fuel c st)) = pre ++ [EvClose c]
    end.
Proof.
  induction fuel as [|fuel IH]; intros c st; simpl.
  - repeat split. constructor.
  - destruct (handle_client_iteration_outcome c st) as (n & Hrecv & Hiter).
    destruct (handle_client_iteration c st) as [[e1 st1] ctl1]. simpl in *.
    destruct ctl1.
    + destruct Hiter as (Hn & He1 & Hc1 & Hr1).
      specialize (IH c st1).
      destruct (handle_client fuel c st1) as [[e2 st2] ctl2]. simpl in *.
      rewrite received_app, erased_app, closed_app, Hrecv, He1, Hc1. simpl.
      destruct ctl2.
      * destruct IH as (Hlen & Hall & He2 & Hc2 & Hr2).
        repeat split; auto; try congruence.
      * destruct IH as ((ok & m & Hrec & Hall & Hm & Hlen) & He2 & Hc2 & Hr2 & (pre & Hpre)).
        repeat split; auto; try congruence.
        -- exists (n :: ok), m. rewrite Hrec.
           split; [reflexivity|]. split; [constructor; assumption|].
           split; [exact Hm | simpl; lia].
        -- exists (e1 ++ pre). rewrite Hpre, app_assoc. reflexivity.
    + destruct Hiter as (Hn & He1 & Hc1 & Hr1 & Hlast). simpl.
      split; [|repeat split; auto].
      exists [], n. rewrite Hrecv.
      split; [reflexivity|]. split; [constructor|]. split; [exact Hn | simpl; lia].
Qed.

End HandlerLoop.

(* ===================================================================== *)
(** ** Further properties of the interleaved threads *)
(* ===================================================================== *)

Section SchedulerExtras.
Context {T : Transport}.

(** X3.  In every system the server can reach, the registry holds each
    socket at most once, never holds [INVALID_SOCKET], and holds only
    sockets the server has not closed. *)
Theorem reachable_registry_sound :
  forall (s : system),
    reachable s ->
    NoDup (client_sockets (shared s))
    /\ ~ In INVALID_SOCKET (client_sockets (shared s))
    /\ (forall c, In c (client_sockets (shared s)) -> In c (open_sockets s)).
Proof.
  intros s R. apply reachable_invariant in R.
  split; [apply (inv_nodup s R)|]. split; [apply (inv_valid s R)|].
  apply (inv_reg_open s R).
Qed.

(** The sends of a step go to sockets registered when the step starts. *)
Lemma sys_step_recipients (t : thread) (s s' : system) (evs : list event) :
  sys_step t s = Some (evs, s') ->
  forall c, In c (recipients evs) -> In c (client_sockets (shared s)).
Proof.
  destruct t as [|i]; simpl.
  - unfold main_step. destruct (main_at s) as [|m|m].
    + unfold accept_client. destruct (accept (env (shared s))) as [m w].
      destruct (m =? INVALID_SOCKET).
      * intros H. injection H as <- _. intros c [].
      * destruct (mem m (open_sockets s)); [discriminate|].
        intros H. injection H as <- _. intros c [].
    + simpl. intros H. injection H as <- _. intros c [].
    + intros H. injection H as <- _. intros c [].
  - destruct (nth_error (handlers s) i) as [[c0 pc]|]; [|discriminate].
    destruct (handler_step c0 pc (shared s)) as [[[evs0 st] pc']|] eqn:Hstep;
      [|discriminate].
    intros H. injection H as <- _.
    destruct pc; simpl in Hstep.
    + unfold receive_chunk in Hstep.
      destruct (recv c0 BUFFER_SIZE (env (shared s))) as [[n buf] w].
      injection Hstep as <- _ _. intros c [].
    + unfold relay_chunk in Hstep.
      pose proof (broadcast_message_recipients
                    (broadcast_msg c0 bytes_received buffer) c0 (shared s)) as Hb.
      destruct (broadcast_message (broadcast_msg c0 bytes_received buffer) c0 (shared s)).
      injection Hstep as <- _ _. simpl in Hb. intros c Hc.
      change (In c (recipients l)) in Hc. rewrite Hb in Hc.
      apply In_erase_remove in Hc. tauto.
    + injection Hstep as <- _ _. intros c [].
    + unfold announce_departure in Hstep.
      pose proof (broadcast_message_recipients
                    (disconnect_msg c0) (to_SOCKET (-1)) (shared s)) as Hb.
      destruct (broadcast_message (disconnect_msg c0) (to_SOCKET (-1)) (shared s)).
      injection Hstep as <- _ _. simpl in Hb. intros c Hc.
      rewrite Hb in Hc. apply In_erase_remove in Hc. tauto.
    + injection Hstep as <- _ _. intros c [].
    + discriminate.
Qed.

(** X4.  From a system the server can reach, whichever thread runs next,
    every [send] of its block is made on a socket that is registered and
    that the server has not closed. *)
Theorem no_send_on_closed_socket :
  forall (t : thread) (s s' : system) (evs : list event) (c : SOCKET),
    reachable s ->
    sys_step t s = Some (evs, s') ->
    In c (recipients evs) ->
    In c (client_sockets (shared s)) /\ In c (open_sockets s).
Proof.
  intros t s s' evs c R Hstep Hc.
  pose proof (sys_step_recipients t s s' evs Hstep c Hc) as Hreg.
  split; [exact Hreg|].
  apply (inv_reg_open s (reachable_invariant s R)), Hreg.
Qed.

(** X5.  In a system the server can reach, when a handler stands before
    its [closesocket]: its socket is still open and is no longer
    registered; its next block closes that socket and does nothing else;
    afterwards the socket is neither open nor registered, and the handler
    never moves again. *)
Theorem closed_session_leaves_nothing :
  forall (s : system) (i : nat) (c : SOCKET),
    reachable s ->
    nth_error (handlers s) i = Some (c, AtClose) ->
    In c (open_sockets s)
    /\ exists s',
         sys_step (HandlerThread i) s = Some ([EvClose c], s')
         /\ ~ In c (open_sockets s')
         /\ ~ In c (client_sockets (shared s'))
         /\ sys_step (HandlerThread i) s' = None.
Proof.
  intros s i c R Hi. apply reachable_invariant in R.
  split.
  - apply (inv_live_open s R). exists i, AtClose. split; [exact Hi | discriminate].
  - simpl. rewrite Hi. simpl. eexists. split; [reflexivity|]. simpl.
    split; [apply erase_remove_gone|]. split.
    + apply (inv_gone s R i c AtClose Hi). right. reflexivity.
    + rewrite (nth_error_set_nth _ _ _ _ _ Hi), Nat.eqb_refl. reflexivity.
Qed.

(** A handler that has not yet erased its socket. *)
Definition serving (pc : handler_pc) : Prop :=
  pc = AtRecv \/ (exists n buffer, pc = AtRelay n buffer) \/ pc = AtDeregister.

(** The socket has a handler that has not yet erased it, or [main] is
    about to start one. *)
Definition served (s : system) (c : SOCKET) : Prop :=
  (exists i pc, nth_error (handlers s) i = Some (c, pc) /\ serving pc)
  \/ main_at s = AtSpawn c.

Lemma served_step (t : thread) (s s' : system) (evs : list event) :
  (forall c, In c (client_sockets (shared s)) -> served s c) ->
  sys_step t s = Some (evs, s') ->
  forall c, In c (client_sockets (shared s')) -> served s' c.
Proof.
  intros Inv. destruct t as [|i]; simpl.
  - unfold main_step. destruct (main_at s) as [|m|m] eqn:Hat.
    + unfold accept_client. destruct (accept (env (shared s))) as [m w].
      assert (Hkeep : forall c, In c (client_sockets (shared s)) ->
                exists i pc, nth_error (handlers s) i = Some (c, pc) /\ serving pc).
      { intros c Hc. destruct (Inv c Hc) as [H|H]; [exact H | congruence]. }
      destruct (m =? INVALID_SOCKET).
      * intros H. injection H as _ <-. simpl. intros c Hc. left. auto.
      * destruct (mem m (open_sockets s)); [discriminate|].
        intros H. injection H as _ <-. simpl. intros c Hc. left. auto.
    + simpl. intros H. injection H as _ <-. simpl. unfold push_back.
      intros c Hc. apply in_app_iff in Hc as [Hc|[<-|[]]].
      * destruct (Inv c Hc) as [H|H]; [left; exact H | congruence].
      * right. reflexivity.
    + intros H. injection H as _ <-. simpl. intros c Hc. left.
      destruct (Inv c Hc) as [(i & pc & Hi & Hpc)|H].
      * exists i, pc. simpl. split; [|exact Hpc].
        rewrite nth_error_app1; [exact Hi|].
        apply nth_error_Some. congruence.
      * rewrite Hat in H. injection H as <-.
        exists (List.length (handlers s)), AtRecv. simpl. split; [|left; reflexivity].
        rewrite nth_error_app2, Nat.sub_diag by lia. reflexivity.
  - destruct (nth_error (handlers s) i) as [[c0 pc]|] eqn:Hi; [|discriminate].
    destruct (handler_step c0 pc (shared s)) as [[[evs0 st] pc']|] eqn:Hstep;
      [|discriminate].
    intros H. injection H as _ <-. simpl.
    pose proof (handler_step_summary c0 pc pc' (shared s) st evs0 Hstep)
      as (_ & _ & _ & Hreg).
    intros c Hc.
    assert (Hold : In c (client_sockets (shared s))).
    { rewrite Hreg in Hc. destruct pc; auto. apply In_erase_remove in Hc. tauto. }
    destruct (Inv c Hold) as [(j & pcj & Hj & Hpcj)|H]; [|right; exact H].
    left. destruct (Nat.eqb_spec i j) as [<-|Hij].
    + rewrite Hi in Hj. injection Hj as <- <-.
      exists i, pc'. simpl. rewrite (nth_error_set_nth _ _ _ _ _ Hi), Nat.eqb_refl.
      split; [reflexivity|].
      destruct Hpcj as [->|[(n & b & ->)| ->]]; simpl in Hstep.
      * unfold receive_chunk in Hstep.
        destruct (recv c0 BUFFER_SIZE (env (shared s))) as [[n buf] w].
        injection Hstep as _ _ <-.
        destruct (0 <? n); [right; left; eauto | right; right; reflexivity].
      * destruct (relay_chunk c0 n b (shared s)). injection Hstep as _ _ <-.
        left. reflexivity.
      * exfalso. rewrite Hreg in Hc. exact (erase_remove_gone c0 _ Hc).
    + exists j, pcj. simpl. rewrite (nth_error_set_nth _ _ _ _ _ Hi).
      destruct (Nat.eqb_spec i j); [contradiction|]. auto.
Qed.

(** X6.  In every system the server can reach, every registered socket
    has a handler thread that has not yet erased it, or is the socket
    [main] has just pushed and is about to start the handler of: the
    registry holds no socket nobody reads from. *)
Theorem registered_socket_is_served :
  forall (s : system) (c : SOCKET),
    reachable s ->
    In c (client_sockets (shared s)) ->
    served s c.
Proof.
  intros s c (w & schedule & evs & Hrun). revert c.
  assert (H : forall schedule s0 s1 evs,
            (forall c, In c (client_sockets (shared s0)) -> served s0 c) ->
            run schedule s0 = Some (evs, s1) ->
            forall c, In c (client_sockets (shared s1)) -> served s1 c).
  { clear. induction schedule as [|t schedule IH]; intros s0 s1 evs Inv; simpl.
    - intros H. injection H as _ <-. exact Inv.
    - destruct (sys_step t s0) as [[e1 s2]|] eqn:Hstep; [|discriminate].
      destruct (run schedule s2) as [[e2 s3]|] eqn:Hrun; [|discriminate].
      intros H. injection H as _ <-.
      apply (IH s2 s3 e2); [|exact Hrun].
      apply (served_step t s0 s2 e1 Inv Hstep). }
  apply (H schedule (initial w) s evs); [|exact Hrun].
  intros c [].
Qed.

(** X17.  In a system the server can reach, when a handler is about to
    announce the departure of its socket [c], whatever the other threads
    did since it erased [c]: its next block sends the notice that names [c]
    exactly once on every socket registered at that moment, [c] is not one
    of them, and nothing else is sent. *)
Theorem departure_announced_to_all_others :
  forall (s : system) (i : nat) (c : SOCKET),
    reachable s ->
    nth_error (handlers s) i = Some (c, AtAnnounce) ->
    exists evs s',
      sys_step (HandlerThread i) s = Some (evs, s')
      /\ (forall r, In r (client_sockets (shared s)) -> sends_to r evs = 1%nat)
      /\ sends_to c evs = 0%nat
      /\ (forall r m, In (r, m) (send_log evs) ->
            m = disconnect_msg c /\ In r (client_sockets (shared s)) /\ r <> c).
Proof.
  intros s i c R Hi.
  destruct (announce_under_any_schedule s i c R Hi)
    as (evs & s' & Hstep & Hlog & Hgone & Hnd & _).
  exists evs, s'. split; [exact Hstep|].
  assert (Hrec : recipients evs = client_sockets (shared s)).
  { unfold recipients. rewrite Hlog, map_map. simpl. apply map_id. }
  split; [|split].
  - intros r Hr. unfold sends_to. rewrite Hrec.
    apply NoDup_count_occ'; assumption.
  - unfold sends_to. rewrite Hrec. apply count_occ_not_In, Hgone.
  - intros r m Hin. rewrite Hlog, in_map_iff in Hin.
    destruct Hin as (x & Heq & Hx). injection Heq as <- <-.
    split; [reflexivity|]. split; [exact Hx|].
    intros ->. exact (Hgone Hx).
Qed.

End SchedulerExtras.

(* ===================================================================== *)
(** ** What a recipient can read off a message *)
(* ===================================================================== *)

Lemma to_string_inj (a b : Z) : to_string a = to_string b -> a = b.
Proof.
  unfold to_string. intros H.
  assert (Hnorm : forall z, Z.to_int z <> Decimal.Pos Decimal.Nil
                            /\ Z.to_int z <> Decimal.Neg Decimal.Nil).
  { intros z. destruct z as [|p|p]; simpl; split; try discriminate.
    - unfold Pos.to_int. destruct (Pos.to_uint p) eqn:Hp; try discriminate.
      exfalso. pose proof (DecimalPos.Unsigned.to_uint_nonnil p) as Hn. congruence.
    - unfold Pos.to_int. destruct (Pos.to_uint p) eqn:Hp; try discriminate.
      exfalso. pose proof (DecimalPos.Unsigned.to_uint_nonnil p) as Hn. congruence. }
  apply DecimalZ.to_int_inj.
  assert (Some (Z.to_int a) = Some (Z.to_int b)) as Heq; [|congruence].
  rewrite <- (NilZero.isi (Z.to_int a)), <- (NilZero.isi (Z.to_int b)), H
    by apply Hnorm.
  reflexivity.
Qed.

(** The decimal digits of an integer hold neither a colon nor a space. *)
Lemma to_string_free_of_separators (z : Z) :
  free_of ":" (to_string z) = true /\ free_of " " (to_string z) = true.
Proof.
  assert (He : forall d, free_of ":" (NilEmpty.string_of_uint d) = true
                         /\ free_of " " (NilEmpty.string_of_uint d) = true).
  { induction d as [|d [IH1 IH2]|d [IH1 IH2]|d [IH1 IH2]|d [IH1 IH2]|d [IH1 IH2]
                    |d [IH1 IH2]|d [IH1 IH2]|d [IH1 IH2]|d [IH1 IH2]|d [IH1 IH2]];
      simpl; try (split; [exact IH1 | exact IH2]); auto. }
  assert (Hu : forall d, free_of ":" (NilZero.string_of_uint d) = true
                         /\ free_of " " (NilZero.string_of_uint d) = true).
  { intros d. destruct d; try apply He. simpl. auto. }
  unfold to_string. destruct (Z.to_int z) as [d|d]; simpl; apply Hu.
Qed.

(** Two strings free of [x] and [y], each followed by one of them, are
    equal only if they are followed by the same one, and are then the same
    with the same rest. *)
Lemma split_at_separator (x y : ascii) (a b r1 r2 : string) :
  free_of x a = true -> free_of y a = true ->
  free_of x b = true -> free_of y b = true ->
  (a ++ String x r1)%string = (b ++ String y r2)%string ->
  x = y /\ a = b /\ r1 = r2.
Proof.
  revert b. induction a as [|ch a IH]; intros [|ch' b] Hxa Hya Hxb Hyb; simpl.
  - intros H. injection H as -> ->. auto.
  - intros H. injection H as <- _. simpl in Hxb.
    rewrite Ascii.eqb_refl in Hxb. discriminate.
  - intros H. injection H as -> _. simpl in Hya.
    rewrite Ascii.eqb_refl in Hya. discriminate.
  - intros H. injection H as -> H. simpl in *.
    apply andb_prop in Hxa as [_ Hxa]. apply andb_prop in Hya as [_ Hya].
    apply andb_prop in Hxb as [_ Hxb]. apply andb_prop in Hyb as [_ Hyb].
    destruct (IH b Hxa Hya Hxb Hyb H) as (Hx & Hab & Hr).
    subst. auto.
Qed.

(** X7.  A relayed message tells its sender and its payload: two relayed
    messages are the same string only if they come from the same socket
    and carry the same bytes. *)
Theorem relayed_message_names_its_sender :
  forall (c c' : SOCKET) (n n' : Z) (buffer buffer' : string),
    broadcast_msg c n buffer = broadcast_msg c' n' buffer' ->
    c = c'
    /\ substring 0 (Z.to_nat n) buffer = substring 0 (Z.to_nat n') buffer'.
Proof.
  intros c c' n n' buffer buffer'. unfold broadcast_msg, client_id. simpl.
  intros H. injection H as H.
  simpl in H.
  destruct (to_string_free_of_separators c) as [Hc1 Hc2].
  destruct (to_string_free_of_separators c') as [Hc1' Hc2'].
  destruct (split_at_separator ":" ":" _ _ _ _ Hc1 Hc1 Hc1' Hc1' H) as (_ & Hid & Hrest).
  split; [apply to_string_inj, Hid|]. injection Hrest as Hrest. exact Hrest.
Qed.

(** X8.  A departure notice tells who left, and no relayed message is a
    departure notice, whatever bytes the sender chose. *)
Theorem departure_notice_is_unmistakable :
  forall (c c' : SOCKET),
    (disconnect_msg c = disconnect_msg c' -> c = c')
    /\ (forall (n : Z) (buffer : string),
          broadcast_msg c n buffer <> disconnect_msg c').
Proof.
  intros c c'.
  destruct (to_string_free_of_separators c) as [Hc1 Hc2].
  destruct (to_string_free_of_separators c') as [Hc1' Hc2'].
  split.
  - unfold disconnect_msg, client_id. simpl. intros H. injection H as H.
    simpl in H.
    destruct (split_at_separator " " " " _ _ _ _ Hc2 Hc2 Hc2' Hc2' H) as (_ & Hid & _).
    apply to_string_inj, Hid.
  - intros n buffer. unfold broadcast_msg, disconnect_msg, client_id. simpl.
    intros H. injection H as H.
    simpl in H.
    destruct (split_at_separator ":" " " _ _ _ _ Hc1 Hc2 Hc1' Hc2' H) as (Hsep & _).
    discriminate.
Qed.

(* ===================================================================== *)
(** ** Further properties of the client's loops *)
(* ===================================================================== *)


Section ReceiverFacts.
Context {T : Transport}.

(** X9.  A run of [receive_messages], however long.  It never sends and
    never closes a socket.  While it is in its loop every [recv] so far
    returned more than 0 and it has shown two texts per chunk, none of them
    the closing line.  When it has left its loop, the last [recv], and only
    the last, returned 0 or less, and the closing line is the last text it
    printed, and is printed once. *)
Theorem receive_messages_outcome :
  forall (fuel : nat) (sock : SOCKET) (w : world),
    send_log (fst (fst (receive_messages fuel sock w))) = []
    /\ closed (fst (fst (receive_messages fuel sock w))) = []
    /\ match snd (receive_messages fuel sock w) with
       | Continue =>
           List.length (received (fst (fst (receive_messages fuel sock w)))) = fuel
           /\ Forall (fun n => 0 < n) (received (fst (fst (receive_messages fuel sock w))))
           /\ ~ In closed_text (printed (fst (fst (receive_messages fuel sock w))))
           /\ List.length (printed (fst (fst (receive_messages fuel sock w))))
              = (2 * fuel)%nat
       | Break =>
           exists ok n shown,
             received (fst (fst (receive_messages fuel sock w))) = ok ++ [n]
             /\ Forall (fun n => 0 < n) ok /\ n <= 0
             /\ (List.length ok < fuel)%nat
             /\ printed (fst (fst (receive_messages fuel sock w))) = shown ++ [closed_text]
             /\ ~ In closed_text shown
             /\ List.length shown = (2 * List.length ok)%nat
       end.
Proof.
  induction fuel as [|fuel IH]; intros sock w; simpl.
  - repeat split; auto.
  - destruct (recv sock BUFFER_SIZE w) as [[n buffer] w1].
    destruct (Z.ltb_spec 0 n) as [Hn|Hn].
    + specialize (IH sock w1).
      destruct (receive_messages fuel sock w1) as [[evs w2] ctl]. simpl in *.
      destruct IH as (Hsend & Hclosed & IH).
      split; [exact Hsend|]. split; [exact Hclosed|].
      destruct ctl.
      * destruct IH as (Hlen & Hall & Hnot & Hshown).
        split; [congruence|]. split; [constructor; assumption|].
        split; [|lia].
        intros [H|[H|H]]; [discriminate | discriminate | exact (Hnot H)].
      * destruct IH as (ok & m & shown & Hrec & Hall & Hm & Hlen & Hpr & Hnot & Hshown).
        exists (n :: ok), m,
          (String carriage_return (substring 0 (Z.to_nat n) buffer) :: "> "%string :: shown).
        rewrite Hrec, Hpr.
        split; [reflexivity|]. split; [constructor; assumption|].
        split; [exact Hm|]. split; [simpl; lia|]. split; [reflexivity|].
        split; [|simpl; lia].
        intros [H|[H|H]]; [discriminate | discriminate | exact (Hnot H)].
    + simpl. split; [reflexivity|]. split; [reflexivity|].
      exists [], n, []. repeat split; auto. simpl. lia.
Qed.

End ReceiverFacts.

Lemma no_newline_free_of (s : string) : no_newline s = free_of newline s.
Proof. induction s as [|ch s IH]; simpl; [reflexivity | rewrite IH; reflexivity]. Qed.

(** Lines without newlines can be read back from their joined text. *)
Lemma join_lines_inj (l1 l2 : list string) :
  forallb no_newline l1 = true -> forallb no_newline l2 = true ->
  join_lines l1 = join_lines l2 -> l1 = l2.
Proof.
  revert l2. induction l1 as [|a l1 IH]; intros [|b l2] H1 H2; simpl in *.
  - reflexivity.
  - destruct b; discriminate.
  - destruct a; discriminate.
  - apply andb_prop in H1 as [Ha H1]. apply andb_prop in H2 as [Hb H2].
    rewrite no_newline_free_of in Ha, Hb. intros H.
    destruct (split_at_separator newline newline a b _ _ Ha Ha Hb Hb H) as (_ & -> & Hrest).
    f_equal. apply IH; assumption.
Qed.

Lemma join_lines_app (l1 l2 : list string) :
  join_lines (l1 ++ l2) = (join_lines l1 ++ join_lines l2)%string.
Proof.
  induction l1 as [|a l1 IH]; simpl; [reflexivity|].
  rewrite IH, append_assoc. reflexivity.
Qed.

(** With the line just read, the lines read are again the whole input. *)
Lemma consume_all (cin line rest : string) (ls : list string) :
  getline cin = Some (line, rest) ->
  (rest = EmptyString -> ls = []) ->
  (join_lines ls = rest \/ join_lines ls = (rest ++ String newline EmptyString)%string) ->
  join_lines (line :: ls) = cin
  \/ join_lines (line :: ls) = (cin ++ String newline EmptyString)%string.
Proof.
  intros Hg Heof IH. destruct cin as [|ch cin]; [discriminate|].
  unfold getline in Hg. injection Hg as Hg.
  apply (read_line_split (String ch cin) line rest) in Hg as [_ [Hcut|[Hall Hrest]]].
  - rewrite Hcut. simpl join_lines. destruct IH as [->| ->].
    + left. reflexivity.
    + right. rewrite append_assoc. reflexivity.
  - right. rewrite (Heof Hrest), <- Hall. reflexivity.
Qed.

Section SenderFacts.
Context {T : Transport}.

Lemma send_loop_outcome (sock : SOCKET) (cin : string) (w : world) :
  closed (fst (send_loop sock cin w)) = []
  /\ received (fst (send_loop sock cin w)) = []
  /\ match failed_sends (fst (send_loop sock cin w)) with
     | [] =>
         (join_lines (lines_read (fst (send_loop sock cin w))) = cin
          \/ join_lines (lines_read (fst (send_loop sock cin w)))
             = (cin ++ String newline EmptyString)%string)
         /\ List.length (printed (fst (send_loop sock cin w)))
            = List.length (lines_read (fst (send_loop sock cin w)))
     | _ :: _ =>
         exists pre line text,
           fst (send_loop sock cin w)
           = pre ++ [EvGetline line; EvSend sock line SOCKET_ERROR; EvCerr text]
           /\ failed_sends pre = []
           /\ S (List.length (printed (fst (send_loop sock cin w))))
              = List.length (lines_read (fst (send_loop sock cin w)))
     end.
Proof.
  funelim (send_loop sock cin w).
  all: try (rewrite <- Heqcall; clear Heqcall).
  - simpl. split; [reflexivity|]. split; [reflexivity|].
    split; [|reflexivity]. left. destruct cin; [reflexivity | discriminate].
  - assert (Heof : rest = EmptyString -> lines_read (fst (send_loop sock rest w)) = [])
      by (intros ->; rewrite send_loop_eof; reflexivity).
    destruct H as (Hclosed & Hrecv & IH).
    destruct (send_loop sock rest w) as [evs w1]. simpl in *.
    split; [exact Hclosed|]. split; [exact Hrecv|].
    destruct (failed_sends evs) as [|f fs].
    + destruct IH as [Hall Hlen]. split; [|congruence].
      apply (consume_all cin line rest _ Hg Heof Hall).
    + destruct IH as (pre & l & text & Hevs & Hpre & Hlen).
      exists (EvGetline line :: EvCout "> " :: pre), l, text.
      rewrite Hevs. simpl. split; [reflexivity|]. split; [exact Hpre|].
      rewrite Hevs in Hlen. simpl in Hlen. congruence.
  - apply Z.eqb_eq in Heq. subst result. simpl.
    split; [reflexivity|]. split; [reflexivity|].
    exists [], line,
      ("Send failed with error: " ++ to_string (WSAGetLastError w1))%string.
    repeat split.
  - assert (Heof : rest = EmptyString -> lines_read (fst (send_loop sock rest w1)) = [])
      by (intros ->; rewrite send_loop_eof; reflexivity).
    destruct H as (Hclosed & Hrecv & IH).
    destruct (send_loop sock rest w1) as [evs w2]. simpl in *.
    rewrite Heq.
    split; [exact Hclosed|]. split; [exact Hrecv|].
    destruct (failed_sends evs) as [|f fs].
    + destruct IH as [Hall Hlen]. split; [|congruence].
      apply (consume_all cin line rest _ Hg Heof Hall).
    + destruct IH as (pre & l & text & Hevs & Hpre & Hlen).
      exists (EvGetline line :: EvSend sock line result :: EvCout "> " :: pre), l, text.
      rewrite Hevs. simpl. rewrite Heq. split; [reflexivity|]. split; [exact Hpre|].
      rewrite Hevs in Hlen. simpl in Hlen. congruence.
Qed.

(** X10.  A run of [send_messages] ends in one of two ways.  No send
    failed: it has read the whole input, line by line, and printed one
    prompt at the start and one after each line.  Or one send failed: that
    send is the last thing it did before the line on [std::cerr], no send
    failed before it, nothing more was read, and no prompt follows. *)
Theorem send_messages_stops_at_first_failure :
  forall (sock : SOCKET) (cin : string) (w : world),
    match failed_sends (fst (send_messages sock cin w)) with
    | [] =>
        (join_lines (lines_read (fst (send_messages sock cin w))) = cin
         \/ join_lines (lines_read (fst (send_messages sock cin w)))
            = (cin ++ String newline EmptyString)%string)
        /\ List.length (printed (fst (send_messages sock cin w)))
           = S (List.length (lines_read (fst (send_messages sock cin w))))
    | _ :: _ =>
        exists pre line text,
          fst (send_messages sock cin w)
          = pre ++ [EvGetline line; EvSend sock line SOCKET_ERROR; EvCerr text]
          /\ failed_sends pre = []
          /\ List.length (printed (fst (send_messages sock cin w)))
             = List.length (lines_read (fst (send_messages sock cin w)))
    end.
Proof.
  intros sock cin w. unfold send_messages.
  pose proof (send_loop_outcome sock cin w) as (_ & _ & H).
  destruct (send_loop sock cin w) as [evs w1]. simpl in *.
  destruct (failed_sends evs) as [|f fs].
  - destruct H as [Hall Hlen]. split; [exact Hall | congruence].
  - destruct H as (pre & line & text & Hevs & Hpre & Hlen).
    exists (EvCout "> " :: pre), line, text. rewrite Hevs. simpl.
    split; [reflexivity|]. split; [exact Hpre|].
    rewrite Hevs in Hlen. simpl in Hlen. congruence.
Qed.

(** X11.  Typing lines: when the input is the given lines, each ended by
    a newline, and no send fails, the client sends exactly the non-empty
    ones among them, whole and in order. *)
Theorem typed_lines_are_sent :
  forall (sock : SOCKET) (lines : list string) (w : world),
    forallb no_newline lines = true ->
    failed_sends (fst (send_messages sock (join_lines lines) w)) = [] ->
    send_log (fst (send_messages sock (join_lines lines) w))
    = map (fun line => (sock, line)) (filter (fun line => negb (empty line)) lines).
Proof.
  intros sock lines w Hlines Hok. unfold send_messages in *.
  pose proof (send_loop_sends_lines sock (join_lines lines) w) as (Hsent & Hnl & _).
  pose proof (send_loop_outcome sock (join_lines lines) w) as (_ & _ & Hall).
  destruct (send_loop sock (join_lines lines) w) as [evs w1]. simpl in *.
  rewrite Hok in Hall. destruct Hall as [Hall _]. rewrite Hsent.
  destruct Hall as [Hall|Hall].
  - apply join_lines_inj in Hall; [rewrite Hall; reflexivity | exact Hnl | exact Hlines].
  - assert (Hmore : join_lines (lines_read evs) = join_lines (lines ++ [EmptyString]))
      by (rewrite join_lines_app; exact Hall).
    apply join_lines_inj in Hmore; [| exact Hnl |].
    + rewrite Hmore, filter_app. simpl. rewrite app_nil_r. reflexivity.
    + rewrite forallb_app, Hlines. reflexivity.
Qed.

End SenderFacts.

(* ===================================================================== *)
(** ** Start-up and shutdown *)
(* ===================================================================== *)

Lemma ran_app (a b : list boot_event) : ran (a ++ b) = ran a ++ ran b.
Proof.
  induction a as [|e a IH]; simpl; [reflexivity|].
  destruct e; simpl; rewrite ?IH; reflexivity.
Qed.

Lemma ran_map (evs : list event) : ran (map BtRun evs) = evs.
Proof. induction evs as [|e evs IH]; simpl; [reflexivity | rewrite IH; reflexivity]. Qed.

Lemma startups_app (a b : list boot_event) :
  startups (a ++ b) = (startups a + startups b)%nat.
Proof.
  induction a as [|e a IH]; simpl; [reflexivity|].
  destruct e; simpl; rewrite ?IH; try reflexivity.
  destruct (result =? 0); simpl; rewrite ?IH; reflexivity.
Qed.

Lemma cleanups_app (a b : list boot_event) :
  cleanups (a ++ b) = (cleanups a + cleanups b)%nat.
Proof.
  induction a as [|e a IH]; simpl; [reflexivity|].
  destruct e; simpl; rewrite ?IH; reflexivity.
Qed.

Lemma created_app (a b : list boot_event) : created (a ++ b) = created a ++ created b.
Proof.
  induction a as [|e a IH]; simpl; [reflexivity|].
  destruct e; simpl; rewrite ?IH; try reflexivity.
  destruct (result =? INVALID_SOCKET); simpl; rewrite ?IH; reflexivity.
Qed.

Lemma started_app (a b : list boot_event) : started (a ++ b) = started a ++ started b.
Proof.
  induction a as [|e a IH]; simpl; [reflexivity|].
  destruct e; simpl; rewrite ?IH; reflexivity.
Qed.

(** The events of a loop are no start-up events. *)
Lemma run_events_quiet (evs : list event) :
  startups (map BtRun evs) = O /\ cleanups (map BtRun evs) = O
  /\ created (map BtRun evs) = [] /\ started (map BtRun evs) = []
  /\ ports (map BtRun evs) = [].
Proof. induction evs as [|e evs IH]; simpl; auto. Qed.

Lemma accepts_length (evs : list event) : accepts evs = List.length (accepted evs).
Proof.
  induction evs as [|e evs IH]; simpl; [reflexivity|].
  destruct e; simpl; rewrite ?IH; reflexivity.
Qed.

Section MainFacts.
Context {W : Winsock}.
#[local] Existing Instance transport | 0.

Lemma main_loop_closes_nothing (fuel : nat) (st : state) :
  closed (fst (fst (main_loop fuel st))) = [].
Proof.
  revert st. induction fuel as [|fuel IH]; intros st; simpl; [reflexivity|].
  unfold main_iteration, accept_client.
  destruct (accept (env st)) as [c w].
  destruct (c =? INVALID_SOCKET); simpl.
  - specialize (IH (with_env st w)).
    destruct (main_loop fuel (with_env st w)) as [[evs st2] ctl]. exact IH.
  - specialize (IH (mkState (push_back c (client_sockets (with_env st w)))
                            (env (with_env st w)))).
    destruct (main_loop fuel _) as [[evs st2] ctl]. exact IH.
Qed.

(** X12.  Whenever the server's [main] returns, it returns 1, it has not
    called [accept], and it has released what it had acquired:
    [WSACleanup] was called exactly if [WSAStartup] had succeeded, and the
    listening socket was closed exactly if it had been created. *)
Theorem server_main_exits_clean :
  forall (fuel : nat) (argv0 : string) (args : list string) (w : world) (code : Z),
    snd (server_main fuel argv0 args w) = Returned code ->
    code = 1
    /\ cleanups (fst (fst (server_main fuel argv0 args w)))
       = startups (fst (fst (server_main fuel argv0 args w)))
    /\ closed (ran (fst (fst (server_main fuel argv0 args w))))
       = created (fst (fst (server_main fuel argv0 args w)))
    /\ accepted (ran (fst (fst (server_main fuel argv0 args w)))) = [].
Proof.
  intros fuel argv0 args w code. unfold server_main, InitializeWinsock.
  destruct args as [|port_arg args].
  { simpl. intros H. injection H as <-. auto. }
  destruct (WSAStartup w) as [r w0].
  destruct (r =? 0) eqn:Hr; simpl.
  2: { intros H. injection H as <-. rewrite Hr. auto. }
  destruct (stoi port_arg) as [port|]; [|discriminate].
  destruct (new_socket w0) as [s w1].
  destruct (s =? INVALID_SOCKET) eqn:Hs; simpl.
  { intros H. injection H as <-. rewrite Hr, Hs. auto. }
  destruct (bind s (htons (to_u_short port)) w1) as [b w2].
  destruct (b =? SOCKET_ERROR); simpl.
  { intros H. injection H as <-. rewrite Hr, Hs. auto. }
  destruct (listen s w2) as [l w3].
  destruct (l =? SOCKET_ERROR); simpl.
  { intros H. injection H as <-. rewrite Hr, Hs. auto. }
  pose proof (main_loop_never_leaves fuel (mkState [] w3)) as [Hc _].
  destruct (main_loop fuel (mkState [] w3)) as [[evs st] ctl]. simpl in Hc.
  subst ctl. discriminate.
Qed.

(** X13.  Once the server listens it never returns: if its [main] is
    still in the accept loop after some number of passes, then after any
    number [n] of passes it is in the loop, has called [accept] [n] times,
    and has neither closed a socket nor called [WSACleanup]. *)
Theorem server_main_serves_forever :
  forall (fuel : nat) (argv0 : string) (args : list string) (w : world),
    snd (server_main fuel argv0 args w) = Looping ->
    forall n,
      snd (server_main n argv0 args w) = Looping
      /\ List.length (accepted (ran (fst (fst (server_main n argv0 args w))))) = n
      /\ closed (ran (fst (fst (server_main n argv0 args w)))) = []
      /\ cleanups (fst (fst (server_main n argv0 args w))) = O.
Proof.
  intros fuel argv0 args w. unfold server_main, InitializeWinsock.
  destruct args as [|port_arg args]; [discriminate|].
  destruct (WSAStartup w) as [r w0].
  destruct (r =? 0) eqn:Hr; simpl; [|discriminate].
  destruct (stoi port_arg) as [port|]; [|discriminate].
  destruct (new_socket w0) as [s w1].
  destruct (s =? INVALID_SOCKET) eqn:Hs; simpl; [discriminate|].
  destruct (bind s (htons (to_u_short port)) w1) as [b w2].
  destruct (b =? SOCKET_ERROR); simpl; [discriminate|].
  destruct (listen s w2) as [l w3].
  destruct (l =? SOCKET_ERROR); simpl; [discriminate|].
  intros _ n.
  pose proof (main_loop_never_leaves n (mkState [] w3)) as [Hc Hn].
  pose proof (main_loop_closes_nothing n (mkState [] w3)) as Hcl.
  destruct (main_loop n (mkState [] w3)) as [[evs st] ctl]. simpl in *.
  subst ctl. simpl. rewrite ran_map.
  destruct (run_events_quiet evs) as (_ & Hclean & _). rewrite Hclean, Hcl.
  rewrite <- accepts_length, Hn. repeat split.
Qed.

(** X14.  When [std::stoi] throws on the port argument, in the server or
    in the client, [WSAStartup] has succeeded and [WSACleanup] is never
    called; no socket was created and nothing was printed. *)
Theorem stoi_failure_leaves_winsock_started :
  forall (fuel : nat) (argv0 : string) (args : list string) (cin : string) (w : world),
    (snd (server_main fuel argv0 args w) = Threw ->
     fst (fst (server_main fuel argv0 args w)) = [BtStartup 0]
     /\ exists port_arg rest, args = port_arg :: rest /\ stoi port_arg = None)
    /\ (snd (client_main argv0 args cin w) = Threw ->
        fst (fst (client_main argv0 args cin w)) = [BtStartup 0]
        /\ exists server_ip port_arg rest,
             args = server_ip :: port_arg :: rest /\ stoi port_arg = None).
Proof.
  intros fuel argv0 args cin w. split.
  - unfold server_main, InitializeWinsock.
    destruct args as [|port_arg args]; [discriminate|].
    destruct (WSAStartup w) as [r w0].
    destruct (Z.eqb_spec r 0) as [->|Hr]; simpl; [|discriminate].
    destruct (stoi port_arg) as [port|] eqn:Hport.
    + destruct (new_socket w0) as [s w1].
      destruct (s =? INVALID_SOCKET); simpl; [discriminate|].
      destruct (bind s (htons (to_u_short port)) w1) as [b w2].
      destruct (b =? SOCKET_ERROR); simpl; [discriminate|].
      destruct (listen s w2) as [l w3].
      destruct (l =? SOCKET_ERROR); simpl; [discriminate|].
      destruct (main_loop fuel (mkState [] w3)) as [[evs st] ctl].
      destruct ctl; discriminate.
    + intros _. split; [reflexivity|]. exists port_arg, args. auto.
  - unfold client_main, InitializeWinsock.
    destruct args as [|server_ip [|port_arg args]]; [discriminate | discriminate |].
    destruct (WSAStartup w) as [r w0].
    destruct (Z.eqb_spec r 0) as [->|Hr]; simpl; [|discriminate].
    destruct (stoi port_arg) as [port|] eqn:Hport.
    + destruct (new_socket w0) as [s w1].
      destruct (s =? INVALID_SOCKET); simpl; [discriminate|].
      destruct (inet_pton server_ip <=? 0); simpl; [discriminate|].
      destruct (connect s server_ip (htons (to_u_short port)) w1) as [c w2].
      destruct (c =? SOCKET_ERROR); simpl; [discriminate|].
      destruct (send_messages s cin w2) as [evs w3]. discriminate.
    + intros _. split; [reflexivity|]. exists server_ip, port_arg, args. auto.
Qed.

(** X15.  The server does not check the range of its port: two port
    arguments that [std::stoi] reads as numbers equal modulo 65536 make the
    server do the same things, bind the same port included, and differ only
    in the lines printed on [std::cout], where the number is shown as it
    was given. *)
Theorem port_is_taken_modulo_65536 :
  forall (fuel : nat) (argv0 a b : string) (rest rest' : list string) (w : world)
         (p q : Z),
    stoi a = Some p ->
    stoi b = Some q ->
    p mod 65536 = q mod 65536 ->
    filter (fun e => negb (is_cout e)) (fst (fst (server_main fuel argv0 (a :: rest) w)))
    = filter (fun e => negb (is_cout e)) (fst (fst (server_main fuel argv0 (b :: rest') w)))
    /\ snd (fst (server_main fuel argv0 (a :: rest) w))
       = snd (fst (server_main fuel argv0 (b :: rest') w))
    /\ snd (server_main fuel argv0 (a :: rest) w)
       = snd (server_main fuel argv0 (b :: rest') w)
    /\ ports (fst (fst (server_main fuel argv0 (a :: rest) w)))
       = ports (fst (fst (server_main fuel argv0 (b :: rest') w))).
Proof.
  intros fuel argv0 a b rest rest' w p q Hp Hq Hmod.
  unfold server_main, InitializeWinsock. rewrite Hp, Hq.
  assert (Hshort : to_u_short p = to_u_short q) by exact Hmod.
  rewrite Hshort.
  destruct (WSAStartup w) as [r w0].
  destruct (r =? 0); simpl; [|auto].
  destruct (new_socket w0) as [s w1].
  destruct (s =? INVALID_SOCKET); simpl; [auto|].
  destruct (bind s (htons (to_u_short q)) w1) as [bd w2].
  destruct (bd =? SOCKET_ERROR); simpl; [auto|].
  destruct (listen s w2) as [l w3].
  destruct (l =? SOCKET_ERROR); simpl; [auto|].
  destruct (main_loop fuel (mkState [] w3)) as [[evs st] ctl].
  destruct ctl; simpl; rewrite ?filter_app; auto.
Qed.

(** X16.  Whenever the client's [main] returns it has released what it
    had acquired: [WSACleanup] was called exactly if [WSAStartup] had
    succeeded, and the socket was closed exactly if it had been created.
    It returns 1 without having started a thread, read a line or sent
    anything; or it returns 0, having started the two threads, and its last
    actions are to join the send thread, detach the receive thread, close
    the socket and call [WSACleanup], in this order. *)
Theorem client_main_exits_clean :
  forall (argv0 : string) (args : list string) (cin : string) (w : world) (code : Z),
    snd (client_main argv0 args cin w) = Returned code ->
    cleanups (fst (fst (client_main argv0 args cin w)))
    = startups (fst (fst (client_main argv0 args cin w)))
    /\ closed (ran (fst (fst (client_main argv0 args cin w))))
       = created (fst (fst (client_main argv0 args cin w)))
    /\ ((code = 1
         /\ started (fst (fst (client_main argv0 args cin w))) = []
         /\ lines_read (ran (fst (fst (client_main argv0 args cin w)))) = []
         /\ send_log (ran (fst (fst (client_main argv0 args cin w)))) = [])
        \/ (code = 0
            /\ started (fst (fst (client_main argv0 args cin w))) = [Receiver; Sender]
            /\ exists sock pre,
                 created (fst (fst (client_main argv0 args cin w))) = [sock]
                 /\ fst (fst (client_main argv0 args cin w))
                    = pre ++ [BtJoin Sender; BtDetach Receiver;
                              BtRun (EvClose sock); BtCleanup])).
Proof.
  intros argv0 args cin w code. unfold client_main, InitializeWinsock.
  destruct args as [|server_ip [|port_arg args]].
  { simpl. intros H. injection H as <-. auto 10. }
  { simpl. intros H. injection H as <-. auto 10. }
  destruct (WSAStartup w) as [r w0].
  destruct (r =? 0) eqn:Hr; simpl.
  2: { intros H. injection H as <-. rewrite Hr. auto 10. }
  destruct (stoi port_arg) as [port|]; [|discriminate].
  destruct (new_socket w0) as [s w1].
  destruct (s =? INVALID_SOCKET) eqn:Hs; simpl.
  { intros H. injection H as <-. rewrite Hr, Hs. auto 10. }
  destruct (inet_pton server_ip <=? 0); simpl.
  { intros H. injection H as <-. rewrite Hr, Hs. auto 10. }
  destruct (connect s server_ip (htons (to_u_short port)) w1) as [c w2].
  destruct (c =? SOCKET_ERROR); simpl.
  { intros H. injection H as <-. rewrite Hr, Hs. auto 10. }
  pose proof (send_loop_outcome s cin w2) as (Hclosed & _).
  unfold send_messages.
  destruct (send_loop s cin w2) as [evs w3]. simpl in *.
  intros H. injection H as <-. rewrite Hr, Hs.
  destruct (run_events_quiet evs) as (Hst & Hcl & Hcr & Hstarted & _).
  rewrite cleanups_app, startups_app, created_app, started_app, ran_app, ran_map.
  rewrite Hst, Hcl, Hcr, Hstarted, closed_app, Hclosed. simpl.
  split; [reflexivity|]. split; [reflexivity|]. right.
  split; [reflexivity|]. split; [reflexivity|].
  exists s. eexists. split; [reflexivity|].
  repeat rewrite app_comm_cons.
  change (BtRun (EvCout "> ") :: map BtRun evs ++ ?t)
    with ((BtRun (EvCout "> ") :: map BtRun evs) ++ t).
  repeat rewrite app_comm_cons. reflexivity.
Qed.

End MainFacts.

(* ===================================================================== *)
(** ** The further properties on the scripted transport *)
(* ===================================================================== *)

Lemma after_reachable (schedule : list thread) (w : script) :
  @run Scripted schedule (@initial Scripted w) <> None ->
  reachable (after schedule w).
Proof.
  intros H. unfold after. exists w, schedule.
  destruct (@run Scripted schedule (@initial Scripted w)) as [[evs s]|];
    [|contradiction].
  exists evs. reflexivity.
Qed.

Lemma relaying_reachable : reachable relaying.
Proof. apply after_reachable. vm_compute. discriminate. Qed.

Lemma announcing_reachable : reachable announcing.
Proof. apply after_reachable. vm_compute. discriminate. Qed.

Lemma closing_reachable : reachable closing.
Proof. apply after_reachable. vm_compute. discriminate. Qed.

(** The registry of the lobby. *)
Lemma lobby_registry_sound :
  reachable lobby
  /\ NoDup (client_sockets (shared lobby))
  /\ ~ In INVALID_SOCKET (client_sockets (shared lobby)).
Proof.
  split; [exact lobby_reachable|].
  destruct (reachable_registry_sound lobby lobby_reachable) as (Hnd & Hvalid & _).
  split; assumption.
Defined.

(** Client 5 relays its chunk: 6, which receives it, is open. *)
Lemma relay_reaches_open_socket :
  reachable relaying
  /\ In 6 (client_sockets (shared relaying)) /\ In 6 (open_sockets relaying).
Proof.
  split; [exact relaying_reachable|].
  refine (no_send_on_closed_socket (HandlerThread 0) relaying _ _ 6
            relaying_reachable _ _).
  - vm_compute. reflexivity.
  - vm_compute. tauto.
Defined.

(** The handler of 6 closes its socket. *)
Lemma session_of_6_leaves_nothing :
  reachable closing
  /\ nth_error (handlers closing) 1 = Some (6, AtClose)
  /\ In 6 (open_sockets closing)
  /\ exists s',
       sys_step (HandlerThread 1) closing = Some ([EvClose 6], s')
       /\ ~ In 6 (open_sockets s')
       /\ ~ In 6 (client_sockets (shared s'))
       /\ sys_step (HandlerThread 1) s' = None.
Proof.
  assert (Hat : nth_error (handlers closing) 1 = Some (6, AtClose))
    by (vm_compute; reflexivity).
  split; [exact closing_reachable|]. split; [exact Hat|].
  exact (closed_session_leaves_nothing closing 1 6 closing_reachable Hat).
Defined.

(** Socket 5 of the lobby has its handler. *)
Lemma socket_5_is_served :
  reachable lobby /\ In 5 (client_sockets (shared lobby)) /\ served lobby 5.
Proof.
  assert (Hin : In 5 (client_sockets (shared lobby))) by (simpl; tauto).
  split; [exact lobby_reachable|]. split; [exact Hin|].
  exact (registered_socket_is_served lobby 5 lobby_reachable Hin).
Defined.

(** The handler of 6 announces its departure to 5 and 7. *)
Lemma departure_of_6_announced :
  reachable announcing
  /\ nth_error (handlers announcing) 1 = Some (6, AtAnnounce)
  /\ exists evs s',
       sys_step (HandlerThread 1) announcing = Some (evs, s')
       /\ sends_to 5 evs = 1%nat /\ sends_to 7 evs = 1%nat /\ sends_to 6 evs = 0%nat.
Proof.
  assert (Hat : nth_error (handlers announcing) 1 = Some (6, AtAnnounce))
    by (vm_compute; reflexivity).
  split; [exact announcing_reachable|]. split; [exact Hat|].
  destruct (departure_announced_to_all_others announcing 1 6 announcing_reachable Hat)
    as (evs & s' & Hstep & Honce & Hself & _).
  exists evs, s'. split; [exact Hstep|].
  split; [apply Honce; vm_compute; tauto|].
  split; [apply Honce; vm_compute; tauto | exact Hself].
Defined.

(** Two chunks in different buffers that agree on their first two bytes. *)
Lemma same_message_same_sender :
  broadcast_msg 5 2 "hi!" = broadcast_msg 5 2 "hi?"
  /\ 5 = 5 /\ substring 0 (Z.to_nat 2) "hi!" = substring 0 (Z.to_nat 2) "hi?".
Proof.
  assert (H : broadcast_msg 5 2 "hi!" = broadcast_msg 5 2 "hi?") by reflexivity.
  split; [exact H|].
  exact (relayed_message_names_its_sender 5 5 2 2 "hi!" "hi?" H).
Defined.

(** The notice of 6 names 6. *)
Lemma notice_of_6_names_6 :
  disconnect_msg 6 = disconnect_msg 6 /\ 6 = 6.
Proof.
  split; [reflexivity|].
  exact (proj1 (departure_notice_is_unmistakable 6 6) eq_refl).
Defined.

(** Three lines typed, the second empty. *)
Lemma hello_and_bye_are_sent :
  forallb no_newline ["hello"; ""; "bye"]%string = true
  /\ failed_sends (fst (@send_messages Scripted 3
                          (join_lines ["hello"; ""; "bye"]%string) quiet)) = []
  /\ send_log (fst (@send_messages Scripted 3
                      (join_lines ["hello"; ""; "bye"]%string) quiet))
     = [(3, "hello"%string); (3, "bye"%string)].
Proof.
  assert (Hl : forallb no_newline ["hello"; ""; "bye"]%string = true) by reflexivity.
  assert (Hok : failed_sends (fst (@send_messages Scripted 3
                  (join_lines ["hello"; ""; "bye"]%string) quiet)) = [])
    by (vm_compute; reflexivity).
  split; [exact Hl|]. split; [exact Hok|].
  exact (@typed_lines_are_sent Scripted 3 ["hello"; ""; "bye"]%string quiet Hl Hok).
Defined.

(** The port is taken: [bind] fails. *)
Lemma bind_failure_exits_clean :
  snd (@server_main PlannedWinsock 2 "server.exe" ["8080"%string]
         (mkPlan 0 100 (-1) 0 0, quiet)) = Returned 1
  /\ cleanups (fst (fst (@server_main PlannedWinsock 2 "server.exe" ["8080"%string]
                           (mkPlan 0 100 (-1) 0 0, quiet)))) = 1%nat
  /\ closed (ran (fst (fst (@server_main PlannedWinsock 2 "server.exe" ["8080"%string]
                              (mkPlan 0 100 (-1) 0 0, quiet))))) = [100].
Proof.
  assert (H : snd (@server_main PlannedWinsock 2 "server.exe" ["8080"%string]
                     (mkPlan 0 100 (-1) 0 0, quiet)) = Returned 1)
    by (vm_compute; reflexivity).
  split; [exact H|].
  destruct (@server_main_exits_clean PlannedWinsock 2 "server.exe" ["8080"%string]
              (mkPlan 0 100 (-1) 0 0, quiet) 1 H) as (_ & Hclean & Hclosed & _).
  split; [rewrite Hclean | rewrite Hclosed]; vm_compute; reflexivity.
Defined.

(** A server that listens is still serving after 5 passes. *)
Lemma listening_server_keeps_serving :
  snd (@server_main PlannedWinsock 0 "server.exe" ["8080"%string]
         (smooth, three_clients)) = Looping
  /\ snd (@server_main PlannedWinsock 5 "server.exe" ["8080"%string]
            (smooth, three_clients)) = Looping.
Proof.
  assert (H : snd (@server_main PlannedWinsock 0 "server.exe" ["8080"%string]
                     (smooth, three_clients)) = Looping)
    by (vm_compute; reflexivity).
  split; [exact H|].
  exact (proj1 (@server_main_serves_forever PlannedWinsock 0 "server.exe"
                  ["8080"%string] (smooth, three_clients) H 5%nat)).
Defined.

(** The port argument is no number. *)
Lemma bad_port_throws :
  snd (@server_main PlannedWinsock 2 "server.exe" ["http"%string] (smooth, quiet)) = Threw
  /\ fst (fst (@server_main PlannedWinsock 2 "server.exe" ["http"%string] (smooth, quiet)))
     = [BtStartup 0].
Proof.
  assert (H : snd (@server_main PlannedWinsock 2 "server.exe" ["http"%string]
                     (smooth, quiet)) = Threw)
    by (vm_compute; reflexivity).
  split; [exact H|].
  exact (proj1 (proj1 (@stoi_failure_leaves_winsock_started PlannedWinsock 2
                         "server.exe" ["http"%string] EmptyString (smooth, quiet)) H)).
Defined.

(** Ports 8080 and 73616. *)
Lemma port_73616_is_port_8080 :
  @stoi PlannedWinsock "8080" = Some 8080
  /\ @stoi PlannedWinsock "73616" = Some 73616
  /\ 8080 mod 65536 = 73616 mod 65536
  /\ ports (fst (fst (@server_main PlannedWinsock 1 "server.exe" ["8080"%string]
                        (smooth, three_clients))))
     = ports (fst (fst (@server_main PlannedWinsock 1 "server.exe" ["73616"%string]
                          (smooth, three_clients)))).
Proof.
  assert (Ha : @stoi PlannedWinsock "8080" = Some 8080) by reflexivity.
  assert (Hb : @stoi PlannedWinsock "73616" = Some 73616) by reflexivity.
  assert (Hm : 8080 mod 65536 = 73616 mod 65536) by reflexivity.
  split; [exact Ha|]. split; [exact Hb|]. split; [exact Hm|].
  exact (proj2 (proj2 (proj2
           (@port_is_taken_modulo_65536 PlannedWinsock 1 "server.exe" "8080" "73616"
              [] [] (smooth, three_clients) 8080 73616 Ha Hb Hm)))).
Defined.

(** The address is no dotted quad: the client gives up before connecting. *)
Lemma bad_address_exits_clean :
  snd (@client_main PlannedWinsock "client.exe" ["localhost"; "8080"]%string
         "hi" (smooth, quiet)) = Returned 1
  /\ cleanups (fst (fst (@client_main PlannedWinsock "client.exe"
                           ["localhost"; "8080"]%string "hi" (smooth, quiet))))
     = startups (fst (fst (@client_main PlannedWinsock "client.exe"
                             ["localhost"; "8080"]%string "hi" (smooth, quiet)))).
Proof.
  assert (H : snd (@client_main PlannedWinsock "client.exe"
                     ["localhost"; "8080"]%string "hi" (smooth, quiet)) = Returned 1)
    by (vm_compute; reflexivity).
  split; [exact H|].
  exact (proj1 (@client_main_exits_clean PlannedWinsock "client.exe"
                  ["localhost"; "8080"]%string "hi" (smooth, quiet) 1 H)).
Defined.
